(** * InvntoryApp: column guessing, row search and pick-list aggregation

    A shallow embedding of the three helper functions of [app.py]
    ([guess_column], [filter_search], [add_to_picklist]) together with the
    small part of Python and pandas they rely on, and the properties of
    these functions.

    Conventions of the embedding
    - Text is [string], read as ASCII text: [lower], [upper], [strip] and
      the matching of letters are those of Python on text whose characters
      are all below 128 ([is_ascii]).  The statements that depend on how
      letters change case say so in a hypothesis.
    - A table cell is a [value]: a text, an integer, or the missing value
      (pandas' NaN).  Other floating-point cells and booleans are not
      represented.
    - A pandas DataFrame is a list of column names and a list of rows, each
      row a list of cells aligned with the column names.
    - A Python dict used as a record (a row turned into a dict, an entry of
      the pick list, the quantities of a form) is a [gmap]; the dict of
      [guess_column], whose iteration order decides the result, is an
      association list updated in place. *)

From Stdlib Require Import ZArith Lia Ascii String DecimalString.
From stdpp Require Import base option list gmap strings.

Local Open Scope string_scope.
Local Open Scope Z_scope.
Local Open Scope list_scope.

(** ** Python strings *)

Module PyStr.

Definition is_upper (c : ascii) : bool :=
  let n := nat_of_ascii c in (65 <=? n)%nat && (n <=? 90)%nat.

Definition is_lower (c : ascii) : bool :=
  let n := nat_of_ascii c in (97 <=? n)%nat && (n <=? 122)%nat.

Definition lower_ascii (c : ascii) : ascii :=
  if is_upper c then ascii_of_nat (nat_of_ascii c + 32) else c.

Definition upper_ascii (c : ascii) : ascii :=
  if is_lower c then ascii_of_nat (nat_of_ascii c - 32) else c.

(** [str.lower()] and [str.upper()] on ASCII text: the letters [A-Z] and
    [a-z] change case and every other character stays.  (On other text
    Python also changes the case of letters beyond ASCII, and may change
    the length: the upper case of the sharp s is SS.) *)
Fixpoint lower (s : string) : string :=
  match s with
  | EmptyString => EmptyString
  | String c r => String (lower_ascii c) (lower r)
  end.

Fixpoint upper (s : string) : string :=
  match s with
  | EmptyString => EmptyString
  | String c r => String (upper_ascii c) (upper r)
  end.

(** [str.isascii()]: every character is below 128. *)
Fixpoint is_ascii (s : string) : bool :=
  match s with
  | EmptyString => true
  | String c r => (nat_of_ascii c <? 128)%nat && is_ascii r
  end.

(** The characters [str.isspace()] accepts below 128: tab, line feed,
    vertical tab, form feed, carriage return, the four separators
    0x1c-0x1f and the space. *)
Definition is_space (c : ascii) : bool :=
  let n := nat_of_ascii c in
  ((9 <=? n)%nat && (n <=? 13)%nat) || ((28 <=? n)%nat && (n <=? 32)%nat).

Fixpoint lstrip (s : string) : string :=
  match s with
  | EmptyString => EmptyString
  | String c r => if is_space c then lstrip r else s
  end.

Fixpoint rstrip (s : string) : string :=
  match s with
  | EmptyString => EmptyString
  | String c r =>
      match rstrip r with
      | EmptyString => if is_space c then EmptyString else String c EmptyString
      | r' => String c r'
      end
  end.

(** [str.strip()] *)
Definition strip (s : string) : string := rstrip (lstrip s).

Fixpoint all_space (s : string) : bool :=
  match s with
  | EmptyString => true
  | String c r => is_space c && all_space r
  end.

Fixpoint is_prefix (t s : string) : bool :=
  match t, s with
  | EmptyString, _ => true
  | String a t', String b s' => Ascii.eqb a b && is_prefix t' s'
  | String _ _, EmptyString => false
  end.

(** [t in s] for two strings: [t] occurs in [s] as a contiguous block. *)
Fixpoint is_infix (t s : string) : bool :=
  is_prefix t s ||
  match s with
  | EmptyString => false
  | String _ s' => is_infix t s'
  end.

(** The same, as a proposition. *)
Definition occurs_in (t s : string) : Prop :=
  ∃ pre post, s = pre +:+ t +:+ post.

(** Case-insensitive occurrence. *)
Definition occurs_in_ci (t s : string) : Prop :=
  occurs_in (lower t) (lower s).

End PyStr.

Import PyStr.

(** ** The column guesser *)

(** [d[k] = v] on an insertion-ordered dict: an existing key keeps its
    place and takes the new value, a new key goes to the end. *)
Fixpoint odict_set {A} (k : string) (v : A) (d : list (string * A)) : list (string * A) :=
  match d with
  | [] => [(k, v)]
  | (k', v') :: d' =>
      if String.eqb k k' then (k, v) :: d' else (k', v') :: odict_set k v d'
  end.

(** [{c.lower(): c for c in columns}] *)
Definition cols_lower (columns : list string) : list (string * string) :=
  foldl (λ d c, odict_set (lower c) c d) [] columns.

(** The inner loop: the first item of the dict whose key contains [cand]. *)
Fixpoint scan_columns (cand : string) (d : list (string * string)) : option string :=
  match d with
  | [] => None
  | (col_lower, original) :: d' =>
      if is_infix cand col_lower then Some original else scan_columns cand d'
  end.

(** The outer loop over the candidates. *)
Fixpoint scan_candidates (d : list (string * string)) (candidates : list string) : option string :=
  match candidates with
  | [] => None
  | cand :: rest =>
      match scan_columns (lower cand) d with
      | Some original => Some original
      | None => scan_candidates d rest
      end
  end.

(** [None] is Python's [None]. *)
Definition guess_column (columns candidates : list string) : option string :=
  match scan_candidates (cols_lower columns) candidates with
  | Some original => Some original
  | None => head columns
  end.

(** ** Regular expressions, as far as the search needs them

    [Series.str.contains(term, case=False, na=False)] is called without
    [regex=False], so pandas compiles [term] with Python's [re] module and
    the flag [re.IGNORECASE], and searches every text with it.  A pattern
    made of ordinary characters and of the dot is interpreted here; any
    other special character of the [re] syntax puts the pattern outside of
    this development ([re_compile] answers [None]). *)

Module PyRe.

Inductive atom : Type :=
  | Lit (c : ascii)   (* an ordinary character *)
  | AnyChar.          (* the dot: any character but the line feed *)

(** The special characters of Python's [re] syntax. *)
Definition is_special (c : ascii) : bool :=
  is_infix (String c EmptyString) ".^$*+?{}[]\|()".

Fixpoint re_compile (pat : string) : option (list atom) :=
  match pat with
  | EmptyString => Some []
  | String c r =>
      if Ascii.eqb c "." then cons AnyChar <$> re_compile r
      else if is_special c then None
      else cons (Lit c) <$> re_compile r
  end.

(** Under [re.IGNORECASE] an ordinary character matches both of its cases.
    This is the matching of ASCII patterns against ASCII text; beyond ASCII
    Python folds the case of other letters too, and the dot stands for one
    code point, not one byte. *)
Definition atom_matches (a : atom) (c : ascii) : bool :=
  match a with
  | Lit x => Ascii.eqb (lower_ascii x) (lower_ascii c)
  | AnyChar => negb (Ascii.eqb c "010")
  end.

Fixpoint match_here (p : list atom) (s : string) : bool :=
  match p, s with
  | [], _ => true
  | a :: p', String c s' => atom_matches a c && match_here p' s'
  | _ :: _, EmptyString => false
  end.

(** [re.search]: the pattern matches at some position of [s]. *)
Fixpoint re_search (p : list atom) (s : string) : bool :=
  match_here p s ||
  match s with
  | EmptyString => false
  | String _ s' => re_search p s'
  end.

(** A pattern without any special character. *)
Fixpoint is_plain (pat : string) : bool :=
  match pat with
  | EmptyString => true
  | String c r => negb (is_special c) && is_plain r
  end.

(** What lowercasing a pattern does to its atoms. *)
Definition fold_case (a : atom) : atom :=
  match a with
  | Lit c => Lit (lower_ascii c)
  | AnyChar => AnyChar
  end.

End PyRe.

Import PyRe.

(** ** Cells, tables and exceptions *)

Inductive value : Type :=
  | VNull             (* a missing cell: NaN *)
  | VStr (s : string)
  | VInt (n : Z).

(** [str(v)], which is also what [Series.astype(str)] puts in place of each
    cell in the pandas releases before 3.0: the missing value becomes the
    text [nan]. *)
Definition py_str (v : value) : string :=
  match v with
  | VNull => "nan"
  | VStr s => s
  | VInt n => NilZero.string_of_int (Z.to_int n)
  end.

Record DataFrame : Type := {
  columns : list string;
  rows : list (list value)
}.

Inductive exn : Type := KeyError | TypeError.

Inductive result (A : Type) : Type :=
  | Ok (a : A)
  | Raise (e : exn).
Arguments Ok {A} a.
Arguments Raise {A} e.

(** Position of a column name among the columns. *)
Fixpoint col_index (cols : list string) (col : string) : option nat :=
  match cols with
  | [] => None
  | c :: cols' => if String.eqb c col then Some 0%nat else S <$> col_index cols' col
  end.

(** The cell of a row at a position; a short row reads as missing cells. *)
Definition cell (i : nat) (r : list value) : value := default VNull (r !! i).

(** [df[col]]: the column as a list of cells, [KeyError] for an unknown
    name. *)
Definition series (df : DataFrame) (col : string) : result (list value) :=
  match col_index (columns df) col with
  | Some i => Ok (cell i <$> rows df)
  | None => Raise KeyError
  end.

(** ** The row filter *)

(** The variable [mask] is the Python value [False] until the first column
    has been searched, and a boolean Series afterwards. *)
Inductive mask : Type :=
  | MFalse
  | MSeries (bs : list bool).

(** [mask | s] for a boolean Series [s]. *)
Definition mask_or (m : mask) (s : list bool) : mask :=
  match m with
  | MFalse => MSeries s
  | MSeries bs => MSeries (zip_with orb bs s)
  end.

(** [df[col].astype(str).str.contains(term, case=False, na=False)] for a
    compiled term. *)
Definition str_contains (p : list atom) (vs : list value) : list bool :=
  (λ v, re_search p (py_str v)) <$> vs.

Fixpoint mask_loop (df : DataFrame) (p : list atom) (search_columns : list string)
    (m : mask) : result mask :=
  match search_columns with
  | [] => Ok m
  | col :: rest =>
      match series df col with
      | Ok vs => mask_loop df p rest (mask_or m (str_contains p vs))
      | Raise e => Raise e
      end
  end.

Fixpoint select_rows {A} (l : list A) (bs : list bool) : list A :=
  match l, bs with
  | x :: l', b :: bs' => if b then x :: select_rows l' bs' else select_rows l' bs'
  | _, _ => []
  end.

(** [df[mask]]: with a boolean Series the rows where it holds; with the
    scalar [False] a column lookup, which fails. *)
Definition df_getitem_mask (df : DataFrame) (m : mask) : result DataFrame :=
  match m with
  | MFalse => Raise KeyError
  | MSeries bs => Ok {| columns := columns df; rows := select_rows (rows df) bs |}
  end.

(** [filter_search(df, term, search_columns)].  The answer is [None] when
    the stripped term uses regular-expression syntax that [re_compile] does
    not interpret. *)
Definition filter_search (df : DataFrame) (term : string) (search_columns : list string)
    : option (result DataFrame) :=
  if String.eqb term "" then Some (Ok df)
  else
    let term := strip term in
    if String.eqb term "" then Some (Ok df)
    else
      match re_compile term with
      | None => None
      | Some p =>
          Some match mask_loop df p search_columns MFalse with
               | Ok m => df_getitem_mask df m
               | Raise e => Raise e
               end
      end.

(** ** What the search is meant to compute

    The reading of a row under a column name, and the rows a search for
    [term] in [search_columns] is to keep: those in which the text of at
    least one of the columns contains [term], letter case ignored.  A
    missing cell has no text and matches nothing. *)

Definition cell_at (df : DataFrame) (col : string) (r : list value) : value :=
  match col_index (columns df) col with
  | Some i => cell i r
  | None => VNull
  end.

Definition cell_text (v : value) : option string :=
  match v with
  | VNull => None
  | _ => Some (py_str v)
  end.

Definition row_matches (df : DataFrame) (term : string) (search_columns : list string)
    (r : list value) : Prop :=
  ∃ col s, col ∈ search_columns ∧ cell_text (cell_at df col r) = Some s ∧
           occurs_in_ci term s.

Definition row_matchesb (df : DataFrame) (term : string) (search_columns : list string)
    (r : list value) : bool :=
  existsb (λ col, match cell_text (cell_at df col r) with
                  | Some s => is_infix (lower term) (lower s)
                  | None => false
                  end) search_columns.

(** The searched cells read as ASCII text. *)
Definition ascii_cells (df : DataFrame) (search_columns : list string) : Prop :=
  ∀ r col, r ∈ rows df → col ∈ search_columns →
    is_ascii (py_str (cell_at df col r)) = true.

(** No missing cell is searched for a term that occurs in the text [nan]. *)
Definition missing_cells_apart (df : DataFrame) (term : string)
    (search_columns : list string) : Prop :=
  ∀ r col, r ∈ rows df → col ∈ search_columns → cell_at df col r = VNull →
    ¬ occurs_in_ci term "nan".

(** ** The pick list *)

(** [row.to_dict()]: the cells of a row under their column names (for a
    name that occurs twice the later cell stays). *)
Fixpoint to_dict_from (i : nat) (cols : list string) (r : list value)
    (d : gmap string value) : gmap string value :=
  match cols with
  | [] => d
  | c :: cols' => to_dict_from (S i) cols' r (<[c := cell i r]> d)
  end.

Definition to_dict (cols : list string) (r : list value) : gmap string value :=
  to_dict_from 0 cols r ∅.

(** The two field names [add_to_picklist] writes, whatever the columns of
    the table are called. *)
Definition Menge : string := "Menge".
Definition Lagerort_Anzeige : string := "Lagerort_Anzeige".

(** Lines 90-96: the entry made from a row.  [location_col] is [None] for
    Python's [None]; an empty name is falsy as well. *)
Definition build_row (rec : gmap string value) (location_col : option string) (qty : Z)
    : gmap string value :=
  let row := <[Menge := VInt qty]> rec in
  match location_col with
  | Some l =>
      if String.eqb l "" then row
      else match row !! l with
           | Some v => <[Lagerort_Anzeige := v]> row
           | None => row
           end
  | None => row
  end.

(** [a == b] on cells: NaN is equal to nothing, not even to itself, and a
    text is never equal to a number. *)
Definition val_eq (a b : value) : bool :=
  match a, b with
  | VStr x, VStr y => String.eqb x y
  | VInt x, VInt y => Z.eqb x y
  | _, _ => false
  end.

(** [d1.get(k) == d2.get(k)]: a missing key reads as [None], and
    [None == None] holds. *)
Definition py_eq (a b : option value) : bool :=
  match a, b with
  | None, None => true
  | Some x, Some y => val_eq x y
  | _, _ => false
  end.

(** [v + qty] for an integer [qty]: integer addition, NaN stays NaN, a text
    raises [TypeError]. *)
Definition val_add (v : value) (qty : Z) : result value :=
  match v with
  | VInt n => Ok (VInt (n + qty))
  | VNull => Ok VNull
  | VStr _ => Raise TypeError
  end.

(** Lines 98-106: add [qty] to the first entry with the key of [row], or
    append [row]. *)
Fixpoint merge_or_append (product_col : string) (qty : Z) (row : gmap string value)
    (picklist : list (gmap string value)) : result (list (gmap string value)) :=
  match picklist with
  | [] => Ok [row]
  | existing :: rest =>
      if py_eq (existing !! product_col) (row !! product_col) then
        match val_add (default (VInt 0) (existing !! Menge)) qty with
        | Ok v => Ok (<[Menge := v]> existing :: rest)
        | Raise e => Raise e
        end
      else
        match merge_or_append product_col qty row rest with
        | Ok rest' => Ok (existing :: rest')
        | Raise e => Raise e
        end
  end.

(** [df[df[product_col].astype(str) == str(prod)]] followed by
    [rows.iloc[0]]: the first row whose product cell reads as [prod], if
    there is one. *)
Definition first_match (df : DataFrame) (i : nat) (prod : string) : option (list value) :=
  List.find (λ r, String.eqb (py_str (cell i r)) prod) (rows df).

(** One turn of the loop over [selected_products].  An exception leaves the
    pick list as it was before the turn. *)
Definition add_product (df : DataFrame) (product_col : string) (location_col : option string)
    (quantities : gmap string Z) (prod : string) (picklist : list (gmap string value))
    : result (list (gmap string value)) :=
  let qty := default 0 (quantities !! prod) in
  if qty <=? 0 then Ok picklist
  else
    match col_index (columns df) product_col with
    | None => Raise KeyError
    | Some i =>
        match first_match df i prod with
        | None => Ok picklist
        | Some r =>
            let row := build_row (to_dict (columns df) r) location_col qty in
            merge_or_append product_col qty row picklist
        end
    end.

(** The loop: the pick list after it, and the exception that ended it
    early, if any. *)
Fixpoint add_loop (df : DataFrame) (product_col : string) (location_col : option string)
    (quantities : gmap string Z) (selected_products : list string)
    (picklist : list (gmap string value)) : list (gmap string value) * option exn :=
  match selected_products with
  | [] => (picklist, None)
  | prod :: rest =>
      match add_product df product_col location_col quantities prod picklist with
      | Ok picklist' => add_loop df product_col location_col quantities rest picklist'
      | Raise e => (picklist, Some e)
      end
  end.

(** The session state: [None] while the key [picklist] is not yet set. *)
Definition session : Type := option (list (gmap string value)).

Definition ensure_picklist_state (st : session) : list (gmap string value) :=
  default [] st.

Definition add_to_picklist (df : DataFrame) (product_col : string)
    (location_col : option string) (selected_products : list string)
    (quantities : gmap string Z) (st : session) : session * option exn :=
  let (picklist, e) :=
    add_loop df product_col location_col quantities selected_products
      (ensure_picklist_state st) in
  (Some picklist, e).

(** The handler of the button that empties the pick list. *)
Definition clear_picklist (st : session) : session := Some [].

(** The two actions of a session on the pick list, and a run of them. *)
Inductive action : Type :=
  | Add (selected_products : list string) (quantities : gmap string Z)
  | Clear.

Definition step (df : DataFrame) (product_col : string) (location_col : option string)
    (st : session) (a : action) : session :=
  match a with
  | Add sel q => (add_to_picklist df product_col location_col sel q st).1
  | Clear => clear_picklist st
  end.

Definition run (df : DataFrame) (product_col : string) (location_col : option string)
    (acts : list action) (st : session) : session :=
  foldl (step df product_col location_col) st acts.

(** ** What the pick list is meant to satisfy *)

(** The identity key of an entry: its value in the product column. *)
Definition key (product_col : string) (e : gmap string value) : option value :=
  e !! product_col.

Definition positive_quantity (e : gmap string value) : Prop :=
  ∃ q, e !! Menge = Some (VInt q) ∧ 0 < q.

Definition unique_keys (product_col : string) (picklist : list (gmap string value)) : Prop :=
  NoDup (key product_col <$> picklist).

(** The quantity field of an entry is not a text (it is a number, or the
    entry has none). *)
Definition menge_is_number (e : gmap string value) : Prop :=
  ∀ s, e !! Menge ≠ Some (VStr s).

(** The three ways a selected product is passed over. *)
Definition passed_over (df : DataFrame) (product_col : string) (quantities : gmap string Z)
    (prod : string) : Prop :=
  quantities !! prod = None ∨
  (∃ q, quantities !! prod = Some q ∧ q ≤ 0) ∨
  (∀ r, r ∈ rows df → py_str (cell_at df product_col r) ≠ prod).

(** A table without missing cells. *)
Definition no_missing_cell (df : DataFrame) : Prop :=
  ∀ r i, r ∈ rows df → (i < length (columns df))%nat → cell i r ≠ VNull.

(** ** Sample data *)

Definition bolt_nut : DataFrame :=
  {| columns := ["Item"; "Bin"];
     rows := [[VStr "Bolt"; VStr "A1"]; [VStr "Nut"; VStr "B2"]] |}.

(** A stock list whose first column is the stocked quantity. *)
Definition stock : DataFrame :=
  {| columns := ["Menge"; "Ware"; "Regal"];
     rows := [[VInt 5; VStr "Bolt"; VStr "A1"]; [VInt 7; VStr "Nut"; VStr "B2"]] |}.

(** The candidates the application passes for the product column. *)
Definition product_candidates : list string :=
  ["artikel"; "produkt"; "product"; "name"; "bezeichnung"; "item"].

(** The candidates it passes for the location column. *)
Definition location_candidates : list string :=
  ["lager"; "lagerort"; "location"; "warehouse"; "regal"; "fach"; "bin"].

(** A table with missing cells. *)
Definition gaps : DataFrame :=
  {| columns := ["Item"; "Bin"];
     rows := [[VStr "Bolt"; VNull]; [VNull; VStr "B2"]; [VStr "Nut"; VStr "Box 7"]] |}.

(** A table that has a column named like the location field of the entries. *)
Definition shelves : DataFrame :=
  {| columns := ["Ware"; "Lagerort_Anzeige"; "Regal"];
     rows := [[VStr "Bolt"; VStr "Halle 2"; VStr "A1"]] |}.

(** ** The rest of the script *)

(** The rows a compiled term selects in the given columns. *)
Definition row_hit (df : DataFrame) (p : list atom) (search_columns : list string)
    (r : list value) : bool :=
  existsb (λ col, re_search p (py_str (cell_at df col r))) search_columns.

(** Lines 10-36, [load_inventory].  Reading the file is the work of pandas:
    [read_csv sep] stands for [pd.read_csv(csv_path, sep=sep,
    engine="python")] and answers a table or the exception it raised.  The
    result is the table returned, or [inr] for the final [RuntimeError],
    which quotes the last exception caught (if any). *)
Definition potential_seps : list (option string) :=
  [None; Some ";"; Some ","; Some (String "009" EmptyString); Some "|"].

Fixpoint try_seps {E : Type} (read_csv : option string → DataFrame + E)
    (seps : list (option string)) (last_error : option E) : DataFrame + option E :=
  match seps with
  | [] => inr last_error
  | sep :: rest =>
      match read_csv sep with
      | inl df =>
          if (1 <=? length (columns df))%nat then inl df
          else try_seps read_csv rest last_error
      | inr e => try_seps read_csv rest (Some e)
      end
  end.

Definition load_inventory {E : Type} (read_csv : option string → DataFrame + E)
    : DataFrame + option E :=
  try_seps read_csv potential_seps None.

(** [if c not in ordered: ordered.append(c)] *)
Definition push_new (ordered : list string) (c : string) : list string :=
  if bool_decide (c ∈ ordered) then ordered else ordered ++ [c].

(** Lines 287-291, the products offered for selection: the texts of the
    product column in the order of their first appearance.  ([dropna] finds
    nothing to drop, the cells being texts after [astype(str)].) *)
Definition available_products (base_df : DataFrame) (product_col : string) : list string :=
  match series base_df product_col with
  | Ok vs => foldl push_new [] (py_str <$> vs)
  | Raise _ => []
  end.

(** Lines 325-334, the column order of the displayed and exported pick list:
    product column, [Lagerort_Anzeige], [Menge] as far as they are columns,
    then the other columns. *)
Definition ordered_cols (product_col : string) (cols : list string) : list string :=
  let leading :=
    foldl (λ ordered c, if bool_decide (c ∈ cols) then push_new ordered c else ordered)
      [] [product_col; Lagerort_Anzeige; Menge] in
  foldl push_new leading cols.

(** The sum of the integer quantities of a pick list. *)
Definition menge_of (e : gmap string value) : Z :=
  match e !! Menge with
  | Some (VInt n) => n
  | _ => 0
  end.

Definition total_quantity (picklist : list (gmap string value)) : Z :=
  foldr (λ e s, menge_of e + s) 0 picklist.

(** The quantity a selected product brings to the pick list: its quantity
    when that is positive and a row of the table reads as the product. *)
Definition taken_quantity (df : DataFrame) (product_col : string)
    (quantities : gmap string Z) (prod : string) : Z :=
  let qty := default 0 (quantities !! prod) in
  if qty <=? 0 then 0
  else match col_index (columns df) product_col with
       | Some i => match first_match df i prod with Some _ => qty | None => 0 end
       | None => 0
       end.

(** * Properties *)

(** ** Strings *)

Section string_facts.

Local Ltac by_cases_on c := destruct c as [[] [] [] [] [] [] [] []]; reflexivity.

Lemma lower_ascii_idemp c : lower_ascii (lower_ascii c) = lower_ascii c.
Proof. by_cases_on c. Qed.

Lemma lower_upper_ascii c : lower_ascii (upper_ascii c) = lower_ascii c.
Proof. by_cases_on c. Qed.

Lemma is_space_lower_ascii c : is_space (lower_ascii c) = is_space c.
Proof. by_cases_on c. Qed.

Lemma is_special_lower_ascii c : is_special (lower_ascii c) = is_special c.
Proof. by_cases_on c. Qed.

Lemma dot_lower_ascii c : Ascii.eqb (lower_ascii c) "." = Ascii.eqb c ".".
Proof. by_cases_on c. Qed.

Lemma lower_idemp s : lower (lower s) = lower s.
Proof. induction s as [|c s IH]; simpl; [done|]. by rewrite lower_ascii_idemp, IH. Qed.

Lemma lower_upper s : lower (upper s) = lower s.
Proof. induction s as [|c s IH]; simpl; [done|]. by rewrite lower_upper_ascii, IH. Qed.

Lemma lower_empty s : String.eqb (lower s) "" = String.eqb s "".
Proof. by destruct s. Qed.

Lemma lstrip_lower s : lstrip (lower s) = lower (lstrip s).
Proof.
  induction s as [|c s IH]; simpl; [done|].
  rewrite is_space_lower_ascii. by destruct (is_space c).
Qed.

Lemma rstrip_lower s : rstrip (lower s) = lower (rstrip s).
Proof.
  induction s as [|c s IH]; simpl; [done|].
  rewrite IH, is_space_lower_ascii.
  destruct (rstrip s); simpl; [|done]. by destruct (is_space c).
Qed.

Lemma strip_lower s : strip (lower s) = lower (strip s).
Proof. unfold strip. by rewrite lstrip_lower, rstrip_lower. Qed.

Lemma lstrip_all_space s : all_space s = true → lstrip s = "".
Proof.
  induction s as [|c s IH]; simpl; [done|].
  intros [Hc Hs]%andb_true_iff. rewrite Hc. auto.
Qed.

Lemma rstrip_all_space s : all_space s = true → rstrip s = "".
Proof.
  induction s as [|c s IH]; simpl; [done|].
  intros [Hc Hs]%andb_true_iff. by rewrite (IH Hs), Hc.
Qed.

Lemma all_space_lstrip s : all_space (lstrip s) = all_space s.
Proof.
  induction s as [|c s IH]; simpl; [done|].
  destruct (is_space c) eqn:Hc; simpl; [done|]. by rewrite Hc.
Qed.

Lemma rstrip_empty s : rstrip s = "" → all_space s = true.
Proof.
  induction s as [|c s IH]; simpl; [done|].
  destruct (rstrip s); [|done]. destruct (is_space c); [|done]. auto.
Qed.

(** A term is blank exactly when stripping it leaves nothing. *)
Lemma strip_empty_iff s : strip s = "" ↔ all_space s = true.
Proof.
  unfold strip. split.
  - intros H%rstrip_empty. by rewrite all_space_lstrip in H.
  - intros H. apply rstrip_all_space. by rewrite all_space_lstrip.
Qed.

Lemma is_prefix_spec t s : is_prefix t s = true ↔ ∃ post, s = t +:+ post.
Proof.
  revert s. induction t as [|a t IH]; intros s; simpl.
  - split; [by exists s|done].
  - destruct s as [|b s]; simpl.
    + split; [done|]. by intros [post ?].
    + rewrite andb_true_iff, Ascii.eqb_eq, IH. split.
      * intros [-> [post ->]]. by exists post.
      * intros [post [= -> ->]]. eauto.
Qed.

Lemma is_infix_spec t s : is_infix t s = true ↔ occurs_in t s.
Proof.
  unfold occurs_in. induction s as [|c s IH]; simpl.
  - rewrite orb_false_r, is_prefix_spec. split.
    + intros [post H]. by exists "", post.
    + intros [pre [post H]]. destruct pre; [by exists post|done].
  - rewrite orb_true_iff, is_prefix_spec, IH. split.
    + intros [[post H]|[pre [post H]]].
      * by exists "", post.
      * exists (String c pre), post. simpl. by rewrite H.
    + intros [[|c' pre] [post H]]; simpl in H.
      * left. by exists post.
      * right. injection H as -> ->. by exists pre, post.
Qed.

Lemma not_infix_spec t s : is_infix t s = false ↔ ¬ occurs_in t s.
Proof. rewrite <- is_infix_spec. by destruct (is_infix t s). Qed.

End string_facts.

(** ** The column guesser *)

Section guess_facts.

Lemma odict_set_items {A} k0 (v : A) d k o :
  (k, o) ∈ odict_set k0 v d → (k, o) = (k0, v) ∨ (k, o) ∈ d.
Proof.
  induction d as [|[k' v'] d IH]; simpl.
  - rewrite list_elem_of_singleton. auto.
  - destruct (String.eqb k0 k'); rewrite !elem_of_cons; [tauto|].
    intros [?|H]; [auto|]. destruct (IH H); auto.
Qed.

Lemma foldl_odict_items cols d k o :
  (k, o) ∈ foldl (λ d c, odict_set (lower c) c d) d cols →
  (k, o) ∈ d ∨ (o ∈ cols ∧ k = lower o).
Proof.
  revert d. induction cols as [|c cols IH]; intros d; simpl; [auto|].
  intros [H|[H ->]]%IH.
  - apply odict_set_items in H as [[= -> ->]|H]; [|auto].
    right. split; [left|done].
  - right. split; [by right|done].
Qed.

(** Every item of the lookup is a column under its lowercased name. *)
Lemma cols_lower_items columns k o :
  (k, o) ∈ cols_lower columns → o ∈ columns ∧ k = lower o.
Proof.
  intros [H|H]%foldl_odict_items; [|done]. by apply elem_of_nil in H.
Qed.

Lemma scan_columns_none cand d :
  (∀ k o, (k, o) ∈ d → is_infix cand k = false) → scan_columns cand d = None.
Proof.
  induction d as [|[k o] d IH]; simpl; intros H; [done|].
  rewrite (H k o) by left. apply IH. intros k' o' ?. apply (H k' o'). by right.
Qed.

Lemma scan_columns_first cand d1 k o d2 :
  (∀ k' o', (k', o') ∈ d1 → is_infix cand k' = false) →
  is_infix cand k = true →
  scan_columns cand (d1 ++ (k, o) :: d2) = Some o.
Proof.
  induction d1 as [|[k' o'] d1 IH]; simpl; intros H Hk.
  - by rewrite Hk.
  - rewrite (H k' o') by left. apply IH; [|done].
    intros k'' o'' ?. apply (H k'' o''). by right.
Qed.

Lemma scan_candidates_none d candidates :
  (∀ cand, cand ∈ candidates → scan_columns (lower cand) d = None) →
  scan_candidates d candidates = None.
Proof.
  induction candidates as [|cand rest IH]; simpl; intros H; [done|].
  rewrite (H cand) by left. apply IH. intros c ?. apply H. by right.
Qed.

Lemma scan_candidates_skip d pre rest :
  (∀ cand, cand ∈ pre → scan_columns (lower cand) d = None) →
  scan_candidates d (pre ++ rest) = scan_candidates d rest.
Proof.
  induction pre as [|cand pre IH]; simpl; intros H; [done|].
  rewrite (H cand) by left. apply IH. intros c ?. apply H. by right.
Qed.

(** A candidate that occurs in no column name finds nothing in the lookup. *)
Lemma scan_columns_no_column columns cand :
  (∀ c, c ∈ columns → ¬ occurs_in_ci cand c) →
  scan_columns (lower cand) (cols_lower columns) = None.
Proof.
  intros H. apply scan_columns_none. intros k o [Ho ->]%cols_lower_items.
  apply not_infix_spec, H, Ho.
Qed.

(** C6: when no candidate occurs, case-insensitively, in any column name,
    [guess_column] returns the first column; for an empty column sequence it
    returns [None] whatever the candidates; with no candidates it returns the
    first column of any non-empty column sequence. *)
Theorem guess_column_fallback :
  (∀ columns candidates,
     (∀ cand c, cand ∈ candidates → c ∈ columns → ¬ occurs_in_ci cand c) →
     guess_column columns candidates = head columns) ∧
  (∀ candidates, guess_column [] candidates = None) ∧
  (∀ c columns, guess_column (c :: columns) [] = Some c).
Proof.
  assert (Hmain : ∀ columns candidates,
     (∀ cand c, cand ∈ candidates → c ∈ columns → ¬ occurs_in_ci cand c) →
     guess_column columns candidates = head columns).
  { intros columns candidates H. unfold guess_column.
    rewrite scan_candidates_none; [done|].
    intros cand Hcand. apply scan_columns_no_column. eauto. }
  split; [exact Hmain|]. split.
  - intros candidates. apply (Hmain [] candidates).
    intros cand c _ Hc. by apply elem_of_nil in Hc.
  - intros c columns. apply (Hmain (c :: columns) []).
    intros cand c' Hcand. by apply elem_of_nil in Hcand.
Qed.

Lemma guess_column_fallback_witness :
  guess_column ["Regal"; "Stueck"] ["artikel"; "name"] = Some "Regal".
Proof.
  apply (proj1 guess_column_fallback ["Regal"; "Stueck"] ["artikel"; "name"]).
  intros cand c Hcand Hc. apply not_infix_spec.
  repeat (apply elem_of_cons in Hcand as [->|Hcand]);
    [| |by apply elem_of_nil in Hcand];
    (repeat (apply elem_of_cons in Hc as [->|Hc]);
      [reflexivity|reflexivity|by apply elem_of_nil in Hc]).
Defined.

(** C7: the candidates are tried in the given order.  For the first
    candidate that occurs in some key of the lookup, [guess_column] returns
    the column stored under the first such key in the lookup's iteration
    order, and that column's lowercased name contains the lowercased
    candidate; the candidates after it play no part. *)
Theorem guess_column_first_match columns pre cand post d1 k original d2 :
  cols_lower columns = d1 ++ (k, original) :: d2 →
  (∀ p c, p ∈ pre → c ∈ columns → ¬ occurs_in_ci p c) →
  (∀ k' o', (k', o') ∈ d1 → ¬ occurs_in (lower cand) k') →
  occurs_in (lower cand) k →
  guess_column columns (pre ++ cand :: post) = Some original ∧
  original ∈ columns ∧ occurs_in_ci cand original.
Proof.
  intros Hd Hpre Hd1 Hk.
  assert (Hitem : original ∈ columns ∧ k = lower original).
  { apply cols_lower_items. rewrite Hd, elem_of_app. right. left. }
  destruct Hitem as [Hin ->]. split; [|done].
  unfold guess_column. rewrite scan_candidates_skip.
  - simpl. rewrite Hd, scan_columns_first; [done| |by apply is_infix_spec].
    intros k' o' H. by apply not_infix_spec, (Hd1 k' o').
  - intros p Hp. apply scan_columns_no_column. eauto.
Qed.

Lemma guess_column_first_match_witness :
  guess_column ["Regal"; "Name"; "Artikelname"] ["item"; "name"; "regal"] = Some "Name".
Proof.
  refine (proj1 (guess_column_first_match
            ["Regal"; "Name"; "Artikelname"] ["item"] "name" ["regal"]
            [("regal", "Regal")] "name" "Name" [("artikelname", "Artikelname")]
            eq_refl _ _ _)).
  - intros p c Hp Hc. apply not_infix_spec.
    apply list_elem_of_singleton in Hp as ->.
    repeat (apply elem_of_cons in Hc as [->|Hc]); try reflexivity.
    by apply elem_of_nil in Hc.
  - intros k' o' H%list_elem_of_singleton. injection H as -> ->.
    by apply not_infix_spec.
  - by apply is_infix_spec.
Defined.

End guess_facts.

(** ** The row filter *)

Section filter_facts.

Lemma re_compile_lower t :
  re_compile (lower t) = fmap (M:=option) (fmap (M:=list) fold_case) (re_compile t).
Proof.
  induction t as [|c t IH]; simpl; [done|].
  rewrite dot_lower_ascii, is_special_lower_ascii, IH.
  destruct (Ascii.eqb c "."); [by destruct (re_compile t)|].
  destruct (is_special c); [done|]. by destruct (re_compile t).
Qed.

Lemma atom_matches_fold_case a c : atom_matches (fold_case a) c = atom_matches a c.
Proof. destruct a; simpl; [|done]. by rewrite lower_ascii_idemp. Qed.

Lemma match_here_fold_case p s : match_here (fold_case <$> p) s = match_here p s.
Proof.
  revert s. induction p as [|a p IH]; intros s; simpl; [done|].
  destruct s; [done|]. by rewrite atom_matches_fold_case, IH.
Qed.

Lemma re_search_fold_case p s : re_search (fold_case <$> p) s = re_search p s.
Proof.
  induction s as [|c s IH]; simpl; rewrite match_here_fold_case; [done|].
  by rewrite IH.
Qed.

Lemma mask_loop_fold_case df p cols m :
  mask_loop df (fold_case <$> p) cols m = mask_loop df p cols m.
Proof.
  revert m. induction cols as [|col cols IH]; intros m; simpl; [done|].
  destruct (series df col) as [vs|e]; [|done]. rewrite IH. do 2 f_equal.
  unfold str_contains. apply list_fmap_ext. intros _ v _.
  apply re_search_fold_case.
Qed.

(** The search does not depend on the letter case of the term. *)
Lemma filter_search_lower df term cols :
  filter_search df (lower term) cols = filter_search df term cols.
Proof.
  unfold filter_search. rewrite lower_empty.
  destruct (String.eqb term ""); [done|].
  rewrite strip_lower, lower_empty.
  destruct (String.eqb (strip term) ""); [done|].
  rewrite re_compile_lower. destruct (re_compile (strip term)) as [p|]; simpl; [|done].
  by rewrite mask_loop_fold_case.
Qed.

Lemma is_special_dot c : is_special c = false → Ascii.eqb c "." = false.
Proof. destruct c as [[] [] [] [] [] [] [] []]; (reflexivity || discriminate). Qed.

(** A term without special characters compiles, and the search for it is the
    case-insensitive substring test. *)
Lemma re_compile_plain t :
  is_plain t = true →
  ∃ p, re_compile t = Some p ∧ ∀ s, re_search p s = is_infix (lower t) (lower s).
Proof.
  intros Ht.
  assert (∃ p, re_compile t = Some p ∧
               ∀ s, match_here p s = is_prefix (lower t) (lower s)) as (p & Hp & Hm).
  { induction t as [|c t IH]; simpl in *; [by exists []|].
    apply andb_true_iff in Ht as [Hc%negb_true_iff Ht].
    destruct (IH Ht) as (p & -> & Hm).
    rewrite (is_special_dot _ Hc), Hc. exists (Lit c :: p). split; [done|].
    intros [|b s]; simpl; [done|]. by rewrite Hm. }
  exists p. split; [done|].
  induction s as [|b s IH]; simpl; rewrite Hm; [done|]. by rewrite IH.
Qed.

Lemma col_index_elem cols col : col ∈ cols → ∃ i, col_index cols col = Some i.
Proof.
  induction cols as [|c cols IH]; [by intros ?%elem_of_nil|].
  simpl. destruct (String.eqb_spec c col) as [->|Hne]; [eauto|].
  intros [->|H]%elem_of_cons; [done|]. destruct (IH H) as [i ->]. eauto.
Qed.

Lemma series_elem df col :
  col ∈ columns df → series df col = Ok (cell_at df col <$> rows df).
Proof.
  intros [i Hi]%col_index_elem. unfold series, cell_at. by rewrite Hi.
Qed.

Lemma zip_with_orb_fmap {A} (f g : A → bool) l :
  zip_with orb (f <$> l) (g <$> l) = (λ x, f x || g x) <$> l.
Proof. induction l as [|x l IH]; csimpl; [done|]. by rewrite IH. Qed.

Lemma select_rows_fmap {A} (f : A → bool) l : select_rows l (f <$> l) = List.filter f l.
Proof. induction l as [|x l IH]; csimpl; [done|]. rewrite IH. by destruct (f x). Qed.

Lemma filter_sublist {A} (f : A → bool) l : List.filter f l `sublist_of` l.
Proof.
  induction l as [|x l IH]; simpl; [constructor|].
  destruct (f x); by constructor.
Qed.

Section loop.
Variables (df : DataFrame) (p : list atom).

Lemma mask_loop_series cols f :
  (∀ c, c ∈ cols → c ∈ columns df) →
  mask_loop df p cols (MSeries (f <$> rows df)) =
  Ok (MSeries ((λ r, f r || existsb (λ col, re_search p (py_str (cell_at df col r))) cols)
               <$> rows df)).
Proof.
  revert f. induction cols as [|col cols IH]; intros f Hcols; simpl.
  - do 2 f_equal. apply list_fmap_ext. intros _ r _. by rewrite orb_false_r.
  - rewrite series_elem by (apply Hcols; left). simpl. unfold str_contains.
    rewrite <- list_fmap_compose, zip_with_orb_fmap, IH.
    + do 2 f_equal. apply list_fmap_ext. intros _ r _. simpl.
      by rewrite orb_assoc.
    + intros c ?. apply Hcols. by right.
Qed.

Lemma mask_loop_start col cols :
  (∀ c, c ∈ col :: cols → c ∈ columns df) →
  mask_loop df p (col :: cols) MFalse =
  Ok (MSeries ((λ r, existsb (λ col, re_search p (py_str (cell_at df col r)))
                            (col :: cols)) <$> rows df)).
Proof.
  intros Hcols. simpl. rewrite series_elem by (apply Hcols; left). simpl.
  unfold str_contains. rewrite <- list_fmap_compose.
  apply (mask_loop_series cols (λ r, re_search p (py_str (cell_at df col r)))).
  intros c ?. apply Hcols. by right.
Qed.
End loop.

Lemma row_matchesb_spec df term cols r :
  row_matchesb df term cols r = true ↔ row_matches df term cols r.
Proof.
  unfold row_matchesb, row_matches, occurs_in_ci. rewrite existsb_exists. split.
  - intros (col & Hin%list_elem_of_In & H).
    destruct (cell_text (cell_at df col r)) as [s|] eqn:Hs; [|done].
    apply is_infix_spec in H. eauto.
  - intros (col & s & Hin%list_elem_of_In & Hs & H%is_infix_spec).
    exists col. by rewrite Hs.
Qed.

End filter_facts.

Section filter_theorems.

Lemma existsb_ext_in {A} (f g : A → bool) l :
  (∀ x, f x = g x) → existsb f l = existsb g l.
Proof. intros H. induction l as [|x l IH]; simpl; [done|]. by rewrite H, IH. Qed.

Lemma all_space_false_nonempty term : all_space term = false → String.eqb term "" = false.
Proof. by destruct term. Qed.

Lemma strip_nonempty term : all_space term = false → String.eqb (strip term) "" = false.
Proof.
  intros H. destruct (String.eqb_spec (strip term) "") as [He|]; [|done].
  apply strip_empty_iff in He. congruence.
Qed.

Lemma existsb_ext_elem {A} (f g : A → bool) (l : list A) :
  (∀ x, x ∈ l → f x = g x) → existsb f l = existsb g l.
Proof.
  intros H. induction l as [|x l IH]; simpl; [done|].
  rewrite (H x) by left. rewrite IH; [done|]. intros y ?. apply H. by right.
Qed.

(** What the code computes for a term that, once stripped, is not empty and
    has no special character, when no missing cell is searched for a term
    that occurs in [nan]. *)
Lemma filter_search_plain df term cols :
  all_space term = false →
  is_plain (strip term) = true →
  missing_cells_apart df (strip term) cols →
  cols ≠ [] →
  (∀ c, c ∈ cols → c ∈ columns df) →
  filter_search df term cols =
  Some (Ok {| columns := columns df;
              rows := List.filter (row_matchesb df (strip term) cols) (rows df) |}).
Proof.
  intros Hns Hplain Hmiss Hne Hcols. unfold filter_search.
  rewrite (all_space_false_nonempty _ Hns), (strip_nonempty _ Hns).
  destruct (re_compile_plain _ Hplain) as (p & -> & Hp).
  destruct cols as [|col cols]; [done|].
  rewrite mask_loop_start by done. simpl. rewrite select_rows_fmap.
  do 3 f_equal. apply List.filter_ext_in. intros r Hr%list_elem_of_In.
  unfold row_matchesb.
  apply (existsb_ext_elem (λ c, re_search p (py_str (cell_at df c r))) _ (col :: cols)).
  intros c Hc. rewrite Hp.
  destruct (cell_at df c r) as [|s|n] eqn:Hcell; [|done|done].
  change (is_infix (lower (strip term)) (lower "nan") = false).
  apply not_infix_spec. by apply (Hmiss r c).
Qed.

(** C3, as the code has it.  The term is stripped of surrounding white space
    before the search, and it is a regular expression: the statement is for
    terms whose stripped form has no special character, and for a non-empty
    list of columns of the table.  It is about ASCII text, and it leaves
    apart the search of a missing cell for a term that occurs in [nan].
    Then the rows kept are exactly the rows in which the text of one of the
    columns contains the stripped term, letter case ignored, a missing cell
    matching nothing; they form a sub-sequence of the rows in the original
    order; and the upper-case and the lower-case spelling of the term give
    the same result. *)
Theorem filter_search_substring df term cols :
  all_space term = false →
  is_plain (strip term) = true →
  is_ascii term = true →
  ascii_cells df cols →
  missing_cells_apart df (strip term) cols →
  cols ≠ [] →
  (∀ c, c ∈ cols → c ∈ columns df) →
  let kept := List.filter (row_matchesb df (strip term) cols) (rows df) in
  filter_search df term cols = Some (Ok {| columns := columns df; rows := kept |}) ∧
  (∀ r, row_matchesb df (strip term) cols r = true ↔ row_matches df (strip term) cols r) ∧
  kept `sublist_of` rows df ∧
  filter_search df (upper term) cols = filter_search df (lower term) cols.
Proof.
  intros Hns Hplain _ _ Hmiss Hne Hcols kept. split; [by apply filter_search_plain|].
  split; [intros r; apply row_matchesb_spec|].
  split; [apply filter_sublist|].
  by rewrite <- (filter_search_lower df (upper term)), lower_upper.
Qed.

Lemma gaps_ascii_cells : ascii_cells gaps ["Item"; "Bin"].
Proof.
  intros r col Hr Hcol. simpl in Hr.
  repeat (apply elem_of_cons in Hr as [->|Hr]); try (by apply elem_of_nil in Hr);
    (repeat (apply elem_of_cons in Hcol as [->|Hcol]);
      [reflexivity|reflexivity|by apply elem_of_nil in Hcol]).
Qed.

Lemma filter_search_substring_witness :
  filter_search gaps " Bo " ["Item"; "Bin"] =
    Some (Ok {| columns := ["Item"; "Bin"];
                rows := [[VStr "Bolt"; VNull]; [VStr "Nut"; VStr "Box 7"]] |}) ∧
  upper " Bo " = " BO " ∧ lower " Bo " = " bo " ∧
  filter_search gaps " BO " ["Item"; "Bin"] = filter_search gaps " bo " ["Item"; "Bin"] ∧
  is_ascii "mütze" = false.
Proof.
  assert (Hmiss : missing_cells_apart gaps (strip " Bo ") ["Item"; "Bin"]).
  { intros r col _ _ _ H%is_infix_spec. discriminate H. }
  pose proof (filter_search_substring gaps " Bo " ["Item"; "Bin"]
                eq_refl eq_refl eq_refl gaps_ascii_cells Hmiss) as H.
  destruct H as (Hkept & _ & _ & Hcase).
  - discriminate.
  - intros c Hc. exact Hc.
  - split; [exact Hkept|]. split; [reflexivity|]. split; [reflexivity|].
    split; [exact Hcase|reflexivity].
Defined.

(** C3 as worded fails on the code: the search for [" bo"] keeps the Bolt
    row, whose texts do not contain [" bo"] (the code strips the term); the
    search for ["."] keeps a row without any dot in it (the term is a regular
    expression); and with no column to search the call raises [KeyError]
    instead of keeping no row. *)
Lemma filter_search_not_literal :
  filter_search bolt_nut " bo" ["Item"] =
    Some (Ok {| columns := ["Item"; "Bin"]; rows := [[VStr "Bolt"; VStr "A1"]] |}) ∧
  ¬ row_matches bolt_nut " bo" ["Item"] [VStr "Bolt"; VStr "A1"] ∧
  filter_search bolt_nut "." ["Item"] = Some (Ok bolt_nut) ∧
  ¬ row_matches bolt_nut "." ["Item"] [VStr "Bolt"; VStr "A1"] ∧
  filter_search bolt_nut "bo" [] = Some (Raise KeyError).
Proof.
  split; [reflexivity|]. split.
  { intros H%row_matchesb_spec. discriminate H. }
  split; [reflexivity|]. split.
  { intros H%row_matchesb_spec. discriminate H. }
  reflexivity.
Qed.

(** C8: a term that is empty or made of white space only gives the table
    back unchanged, whatever the columns. *)
Theorem filter_search_blank df term cols :
  all_space term = true → filter_search df term cols = Some (Ok df).
Proof.
  intros H. unfold filter_search.
  destruct (String.eqb term ""); [done|].
  apply strip_empty_iff in H. by rewrite H.
Qed.

Lemma filter_search_blank_witness :
  filter_search bolt_nut "  " ["Item"; "No such column"] = Some (Ok bolt_nut).
Proof. apply (filter_search_blank bolt_nut "  " ["Item"; "No such column"]). reflexivity. Defined.

(** C4, on the code: a row whose only cell is missing is kept by the search
    for ["nan"], because [astype(str)] has turned the missing cell into the
    text [nan] before [str.contains] looks at it, so that [na=False] never
    applies.  No exception is raised. *)
Theorem filter_search_matches_missing_cell :
  filter_search {| columns := ["Item"]; rows := [[VNull]; [VStr "Bolt"]] |} "nan" ["Item"] =
  Some (Ok {| columns := ["Item"]; rows := [[VNull]] |}).
Proof. reflexivity. Qed.

End filter_theorems.

(** ** The entry built from a row *)

Section build_row_facts.

Lemma build_row_menge rec lc qty : build_row rec lc qty !! Menge = Some (VInt qty).
Proof.
  unfold build_row. destruct lc as [l|]; [|apply lookup_insert_eq].
  destruct (String.eqb l ""); [apply lookup_insert_eq|].
  destruct (<[Menge:=VInt qty]> rec !! l); [|apply lookup_insert_eq].
  rewrite lookup_insert_ne by done. apply lookup_insert_eq.
Qed.

Lemma build_row_other rec lc qty f :
  f ≠ Menge → f ≠ Lagerort_Anzeige → build_row rec lc qty !! f = rec !! f.
Proof.
  intros H1 H2. unfold build_row.
  assert (<[Menge:=VInt qty]> rec !! f = rec !! f) as Hf by by rewrite lookup_insert_ne.
  destruct lc as [l|]; [|done]. destruct (String.eqb l ""); [done|].
  destruct (<[Menge:=VInt qty]> rec !! l); [|done].
  by rewrite lookup_insert_ne.
Qed.

Lemma build_row_location rec l qty v :
  l ≠ "" → <[Menge:=VInt qty]> rec !! l = Some v →
  build_row rec (Some l) qty !! Lagerort_Anzeige = Some v.
Proof.
  intros Hl Hv. unfold build_row.
  destruct (String.eqb_spec l ""); [done|]. rewrite Hv. apply lookup_insert_eq.
Qed.

(** The value the row had under [Menge] plays no part in the entry. *)
Lemma build_row_forgets_menge rec lc qty x :
  build_row (<[Menge:=x]> rec) lc qty = build_row rec lc qty.
Proof. unfold build_row. by rewrite insert_insert_eq. Qed.

(** Nor does the value it had under [Lagerort_Anzeige], once a location
    column other than [Lagerort_Anzeige] itself is copied there. *)
Lemma build_row_forgets_lagerort rec l qty x :
  l ≠ "" → l ≠ Lagerort_Anzeige → is_Some (<[Menge:=VInt qty]> rec !! l) →
  build_row (<[Lagerort_Anzeige:=x]> rec) (Some l) qty = build_row rec (Some l) qty.
Proof.
  intros Hl Hne [v Hv]. unfold build_row.
  destruct (String.eqb_spec l ""); [done|].
  rewrite (insert_insert_ne rec Menge Lagerort_Anzeige) by done.
  rewrite lookup_insert_ne by done. rewrite Hv.
  by rewrite insert_insert_eq.
Qed.

Lemma to_dict_from_lookup i cols r d c :
  c ∈ cols → is_Some (to_dict_from i cols r d !! c).
Proof.
  intros Hc. revert i d.
  assert (Hkeep : ∀ cols i d, is_Some (d !! c) → is_Some (to_dict_from i cols r d !! c)).
  { clear. induction cols as [|c' cols IH]; intros i d Hd; simpl; [done|].
    apply IH. rewrite lookup_insert. by case_decide. }
  induction cols as [|c' cols IH]; intros i d; [by apply elem_of_nil in Hc|].
  simpl. apply elem_of_cons in Hc as [->|Hc]; [|by apply IH].
  apply Hkeep. rewrite lookup_insert_eq. eauto.
Qed.

(** Every column of the table is a key of the dict made from a row. *)
Lemma to_dict_is_Some cols r c : c ∈ cols → is_Some (to_dict cols r !! c).
Proof. apply to_dict_from_lookup. Qed.

(** What the row had under [Lagerort_Anzeige] stays in the entry when no
    location is copied there, and when the location column is
    [Lagerort_Anzeige] itself. *)
Lemma build_row_keeps_lagerort_value rec lc qty :
  lc = None ∨ lc = Some "" ∨ lc = Some Lagerort_Anzeige ∨
    (∃ l, lc = Some l ∧ <[Menge:=VInt qty]> rec !! l = None) →
  build_row rec lc qty !! Lagerort_Anzeige = rec !! Lagerort_Anzeige.
Proof.
  assert (Hrow : <[Menge:=VInt qty]> rec !! Lagerort_Anzeige = rec !! Lagerort_Anzeige)
    by by rewrite lookup_insert_ne.
  unfold build_row. intros [->|[->|[->|(l & -> & Hl)]]]; [done|done| |].
  - simpl. rewrite Hrow. destruct (rec !! Lagerort_Anzeige) as [v|] eqn:Hv; [|done].
    by rewrite lookup_insert_eq.
  - destruct (String.eqb l ""); [done|]. by rewrite Hl.
Qed.

(** C10, as the code has it.  Whatever the columns of the table are called,
    the entry built from a row carries the quantity under [Menge], and a
    table that has a column [Menge] loses its value there: the entry is the
    same whatever that cell held.  The location is copied under
    [Lagerort_Anzeige] only when a location column is set and present in
    the row; a table that has a column [Lagerort_Anzeige] then loses its
    value there, provided the location column is another column.  With no
    location column, or with [Lagerort_Anzeige] itself as the location
    column, the entry keeps the value of the table. *)
Theorem build_row_overwrites df r lc qty :
  let rec := to_dict (columns df) r in
  build_row rec lc qty !! Menge = Some (VInt qty) ∧
  (∀ l v, lc = Some l → l ≠ "" → <[Menge:=VInt qty]> rec !! l = Some v →
     build_row rec lc qty !! Lagerort_Anzeige = Some v) ∧
  (Menge ∈ columns df →
     is_Some (rec !! Menge) ∧ ∀ x, build_row (<[Menge:=x]> rec) lc qty = build_row rec lc qty) ∧
  (Lagerort_Anzeige ∈ columns df →
     is_Some (rec !! Lagerort_Anzeige) ∧
     ∀ l x, lc = Some l → l ≠ "" → l ≠ Lagerort_Anzeige →
       is_Some (<[Menge:=VInt qty]> rec !! l) →
       build_row (<[Lagerort_Anzeige:=x]> rec) lc qty = build_row rec lc qty) ∧
  (lc = None ∨ lc = Some "" ∨ lc = Some Lagerort_Anzeige ∨
     (∃ l, lc = Some l ∧ <[Menge:=VInt qty]> rec !! l = None) →
   build_row rec lc qty !! Lagerort_Anzeige = rec !! Lagerort_Anzeige).
Proof.
  intros rec. split; [apply build_row_menge|]. split.
  { intros l v -> Hl Hv. by apply build_row_location. }
  split; [|split].
  - intros Hin. split; [by apply to_dict_is_Some|].
    intros x. apply build_row_forgets_menge.
  - intros Hin. split; [by apply to_dict_is_Some|].
    intros l x -> Hl Hne Hsome. by apply build_row_forgets_lagerort.
  - apply build_row_keeps_lagerort_value.
Qed.

Lemma build_row_overwrites_witness :
  to_dict (columns stock) [VInt 5; VStr "Bolt"; VStr "A1"] !! "Menge" = Some (VInt 5) ∧
  build_row (to_dict (columns stock) [VInt 5; VStr "Bolt"; VStr "A1"]) (Some "Regal") 2
    !! "Menge" = Some (VInt 2) ∧
  to_dict (columns shelves) [VStr "Bolt"; VStr "Halle 2"; VStr "A1"] !! "Lagerort_Anzeige" =
    Some (VStr "Halle 2") ∧
  build_row (to_dict (columns shelves) [VStr "Bolt"; VStr "Halle 2"; VStr "A1"])
    (Some "Regal") 2 !! "Lagerort_Anzeige" = Some (VStr "A1") ∧
  build_row (<["Lagerort_Anzeige":=VStr "Halle 9"]>
               (to_dict (columns shelves) [VStr "Bolt"; VStr "Halle 2"; VStr "A1"]))
    (Some "Regal") 2 =
  build_row (to_dict (columns shelves) [VStr "Bolt"; VStr "Halle 2"; VStr "A1"])
    (Some "Regal") 2.
Proof.
  pose proof (build_row_overwrites stock [VInt 5; VStr "Bolt"; VStr "A1"] (Some "Regal") 2)
    as (Hmenge & _).
  pose proof (build_row_overwrites shelves [VStr "Bolt"; VStr "Halle 2"; VStr "A1"]
                (Some "Regal") 2) as (_ & Hloc & _ & Hlost & _).
  split; [reflexivity|]. split; [exact Hmenge|]. split; [reflexivity|]. split.
  - apply (Hloc "Regal" (VStr "A1")); [reflexivity|discriminate|reflexivity].
  - assert (Hin : Lagerort_Anzeige ∈ columns shelves) by (right; left).
    apply (proj2 (Hlost Hin) "Regal" (VStr "Halle 9"));
      [reflexivity|discriminate|discriminate|by eexists].
Defined.

(** C10 as worded fails on the code: in a table with a column
    [Lagerort_Anzeige], for which the application guesses that very column
    as the location column, the entry keeps the value of the table under
    [Lagerort_Anzeige], both with no location column and with the guessed
    one. *)
Lemma build_row_keeps_lagerort :
  guess_column (columns shelves) location_candidates = Some "Lagerort_Anzeige" ∧
  add_to_picklist shelves "Ware" None ["Bolt"] {[ "Bolt" := 2 ]} None =
    (Some [ {[ "Ware" := VStr "Bolt"; "Lagerort_Anzeige" := VStr "Halle 2";
               "Regal" := VStr "A1"; "Menge" := VInt 2 ]} ], None) ∧
  add_to_picklist shelves "Ware" (Some "Lagerort_Anzeige") ["Bolt"] {[ "Bolt" := 2 ]} None =
    (Some [ {[ "Ware" := VStr "Bolt"; "Lagerort_Anzeige" := VStr "Halle 2";
               "Regal" := VStr "A1"; "Menge" := VInt 2 ]} ], None).
Proof. split; [reflexivity|]. split; reflexivity. Qed.

End build_row_facts.

(** ** Merging into the pick list *)

Section merge_facts.

Implicit Types (e row : gmap string value) (pl pre post : list (gmap string value)).

(** No entry with the key of the row: the row goes to the end. *)
Lemma merge_or_append_append pc qty row pl :
  Forall (λ e, py_eq (e !! pc) (row !! pc) = false) pl →
  merge_or_append pc qty row pl = Ok (pl ++ [row]).
Proof.
  induction 1 as [|e pl He _ IH]; simpl; [done|]. by rewrite He, IH.
Qed.

(** The first entry with the key of the row takes the quantity. *)
Lemma merge_or_append_merge pc qty row pre e post v :
  Forall (λ x, py_eq (x !! pc) (row !! pc) = false) pre →
  py_eq (e !! pc) (row !! pc) = true →
  val_add (default (VInt 0) (e !! Menge)) qty = Ok v →
  merge_or_append pc qty row (pre ++ e :: post) = Ok (pre ++ <[Menge:=v]> e :: post).
Proof.
  intros Hpre He Hv. induction Hpre as [|x pre Hx _ IH]; simpl.
  - by rewrite He, Hv.
  - by rewrite Hx, IH.
Qed.

Lemma val_add_number e qty :
  menge_is_number e →
  ∃ v, val_add (default (VInt 0) (e !! Menge)) qty = Ok v ∧ ∀ s, v ≠ VStr s.
Proof.
  intros He. destruct (e !! Menge) as [[|s|n]|] eqn:Hm; simpl; eauto.
  by destruct (He s).
Qed.

Lemma insert_menge_number e v : (∀ s, v ≠ VStr s) → menge_is_number (<[Menge:=v]> e).
Proof. intros Hv s. rewrite lookup_insert_eq. intros [= ->]. by apply (Hv s). Qed.

Lemma merge_or_append_number pc qty row pl :
  menge_is_number row → Forall menge_is_number pl →
  ∃ pl', merge_or_append pc qty row pl = Ok pl' ∧ Forall menge_is_number pl'.
Proof.
  intros Hrow. induction 1 as [|e pl He Hpl IH]; simpl.
  - exists [row]. split; [done|]. by constructor.
  - destruct (py_eq (e !! pc) (row !! pc)).
    + destruct (val_add_number e qty He) as (v & -> & Hv).
      eexists. split; [done|]. constructor; [|done]. by apply insert_menge_number.
    + destruct IH as (pl' & -> & Hpl'). eexists. split; [done|]. by constructor.
Qed.

Lemma merge_or_append_positive pc qty row pl :
  0 < qty → positive_quantity row → Forall positive_quantity pl →
  ∃ pl', merge_or_append pc qty row pl = Ok pl' ∧ Forall positive_quantity pl'.
Proof.
  intros Hq Hrow. induction 1 as [|e pl He Hpl IH]; simpl.
  - exists [row]. split; [done|]. by constructor.
  - destruct (py_eq (e !! pc) (row !! pc)).
    + destruct He as (n & Hn & Hpos). rewrite Hn. simpl.
      eexists. split; [done|]. constructor; [|done].
      exists (n + qty). rewrite lookup_insert_eq. split; [done|lia].
    + destruct IH as (pl' & -> & Hpl'). eexists. split; [done|]. by constructor.
Qed.

Lemma build_row_number rec lc qty : menge_is_number (build_row rec lc qty).
Proof. intros s. by rewrite build_row_menge. Qed.

Lemma build_row_positive rec lc qty : 0 < qty → positive_quantity (build_row rec lc qty).
Proof. intros Hq. exists qty. by rewrite build_row_menge. Qed.

End merge_facts.

(** ** One selected product *)

Section add_facts.

Implicit Types (e row : gmap string value) (pl pre post : list (gmap string value)).
Implicit Types (quantities : gmap string Z).

Lemma find_none_iff {A} (f : A → bool) l : (∀ x, x ∈ l → f x = false) → List.find f l = None.
Proof.
  induction l as [|x l IH]; simpl; intros H; [done|].
  rewrite (H x) by left. apply IH. intros y ?. apply H. by right.
Qed.

Lemma add_product_passed_over df pc lc quantities prod pl :
  pc ∈ columns df → passed_over df pc quantities prod →
  add_product df pc lc quantities prod pl = Ok pl.
Proof.
  intros [i Hi]%col_index_elem Hskip. unfold add_product.
  destruct Hskip as [Hq|[(q & Hq & Hle)|Hrows]].
  - by rewrite Hq.
  - rewrite Hq. simpl. by destruct (Z.leb_spec q 0); [|lia].
  - destruct (default 0 (quantities !! prod) <=? 0); [done|].
    rewrite Hi. unfold first_match. rewrite find_none_iff; [done|].
    intros r Hr. apply String.eqb_neq. specialize (Hrows r Hr).
    unfold cell_at in Hrows. by rewrite Hi in Hrows.
Qed.

(** A quantity that is absent or not positive passes the product over
    before the table is looked at. *)
Lemma add_product_no_quantity df pc lc quantities prod pl :
  default 0 (quantities !! prod) ≤ 0 → add_product df pc lc quantities prod pl = Ok pl.
Proof. intros H. unfold add_product. by destruct (Z.leb_spec (default 0 (quantities !! prod)) 0); [|lia]. Qed.

Lemma add_product_number df pc lc quantities prod pl :
  pc ∈ columns df → Forall menge_is_number pl →
  ∃ pl', add_product df pc lc quantities prod pl = Ok pl' ∧ Forall menge_is_number pl'.
Proof.
  intros [i Hi]%col_index_elem Hpl. unfold add_product.
  destruct (default 0 (quantities !! prod) <=? 0); [eauto|].
  rewrite Hi. destruct (first_match df i prod) as [r|]; [|eauto].
  apply merge_or_append_number; [apply build_row_number|done].
Qed.

Lemma add_loop_number df pc lc quantities sel pl :
  pc ∈ columns df → Forall menge_is_number pl →
  ∃ pl', add_loop df pc lc quantities sel pl = (pl', None) ∧ Forall menge_is_number pl'.
Proof.
  intros Hpc. revert pl. induction sel as [|prod sel IH]; intros pl Hpl; simpl; [eauto|].
  destruct (add_product_number df pc lc quantities prod pl Hpc Hpl) as (pl1 & -> & Hpl1).
  by apply IH.
Qed.

Lemma add_loop_passed_over df pc lc quantities prod sel1 sel2 pl :
  (∀ pl', add_product df pc lc quantities prod pl' = Ok pl') →
  add_loop df pc lc quantities (sel1 ++ prod :: sel2) pl =
  add_loop df pc lc quantities (sel1 ++ sel2) pl.
Proof.
  intros Hskip. revert pl. induction sel1 as [|a sel1 IH]; intros pl; simpl.
  - by rewrite Hskip.
  - destruct (add_product df pc lc quantities a pl); [apply IH|done].
Qed.

(** C5: for a product column of the table, a selected product is passed over
    (the pick list stays as it is and nothing is raised) when it has no
    quantity, when its quantity is not positive, or when no row of the table
    reads as that product; passing a product over changes nothing for the
    other selected products; and the whole operation raises nothing. *)
Theorem add_passes_over_and_never_fails df pc lc quantities :
  pc ∈ columns df →
  (∀ prod pl, passed_over df pc quantities prod →
     add_product df pc lc quantities prod pl = Ok pl) ∧
  (∀ prod sel1 sel2 pl, passed_over df pc quantities prod →
     add_loop df pc lc quantities (sel1 ++ prod :: sel2) pl =
     add_loop df pc lc quantities (sel1 ++ sel2) pl) ∧
  (∀ sel st, Forall menge_is_number (ensure_picklist_state st) →
     ∃ pl', add_to_picklist df pc lc sel quantities st = (Some pl', None) ∧
            Forall menge_is_number pl').
Proof.
  intros Hpc. split; [|split].
  - intros prod pl. by apply add_product_passed_over.
  - intros prod sel1 sel2 pl Hskip. apply add_loop_passed_over.
    intros pl'. by apply add_product_passed_over.
  - intros sel st Hst. unfold add_to_picklist.
    destruct (add_loop_number df pc lc quantities sel _ Hpc Hst) as (pl' & -> & Hpl').
    eauto.
Qed.

Lemma add_passes_over_and_never_fails_witness :
  add_loop bolt_nut "Item" (Some "Bin") {[ "Bolt" := 5; "Nut" := 0 ]} ["Nut"; "Bolt"] [] =
  add_loop bolt_nut "Item" (Some "Bin") {[ "Bolt" := 5; "Nut" := 0 ]} ["Bolt"] [].
Proof.
  assert (Hpc : "Item" ∈ columns bolt_nut) by left.
  apply (proj1 (proj2 (add_passes_over_and_never_fails
                         bolt_nut "Item" (Some "Bin") {[ "Bolt" := 5; "Nut" := 0 ]} Hpc))
           "Nut" [] ["Bolt"] []).
  right. left. exists 0. split; [reflexivity|lia].
Defined.

End add_facts.

(** ** Merging a selected product *)

Section merge_theorems.

Implicit Types (e row : gmap string value) (pl pre post : list (gmap string value)).
Implicit Types (quantities : gmap string Z).

(** C9: when the product being added has the key of an entry of the pick
    list, the first such entry gets the quantity added to its [Menge] field
    and keeps every other field; the entries before and after it, their
    order and their number stay as they were. *)
Theorem add_product_merge_frame df pc lc quantities prod i r qty pre e post n :
  quantities !! prod = Some qty → 0 < qty →
  col_index (columns df) pc = Some i →
  first_match df i prod = Some r →
  let row := build_row (to_dict (columns df) r) lc qty in
  Forall (λ x, py_eq (x !! pc) (row !! pc) = false) pre →
  py_eq (e !! pc) (row !! pc) = true →
  default (VInt 0) (e !! Menge) = VInt n →
  ∃ e', add_product df pc lc quantities prod (pre ++ e :: post) = Ok (pre ++ e' :: post) ∧
        e' !! Menge = Some (VInt (n + qty)) ∧
        (∀ f, f ≠ Menge → e' !! f = e !! f) ∧
        length (pre ++ e' :: post) = length (pre ++ e :: post).
Proof.
  intros Hq Hpos Hi Hr row Hpre He Hn.
  exists (<[Menge:=VInt (n + qty)]> e). split; [|split; [|split]].
  - unfold add_product. rewrite Hq. simpl.
    destruct (Z.leb_spec qty 0); [lia|]. rewrite Hi, Hr.
    apply merge_or_append_merge; [done..|]. by rewrite Hn.
  - apply lookup_insert_eq.
  - intros f Hf. by rewrite lookup_insert_ne.
  - by rewrite !length_app.
Qed.

Lemma add_product_merge_frame_witness :
  ∃ e', add_product bolt_nut "Item" (Some "Bin") {[ "Nut" := 3 ]} "Nut"
          [ {[ "Item" := VStr "Bolt"; "Menge" := VInt 1 ]};
            {[ "Item" := VStr "Nut"; "Bin" := VStr "B2"; "Menge" := VInt 2 ]};
            {[ "Item" := VStr "Nut"; "Menge" := VInt 9 ]} ] =
        Ok [ {[ "Item" := VStr "Bolt"; "Menge" := VInt 1 ]}; e';
             {[ "Item" := VStr "Nut"; "Menge" := VInt 9 ]} ] ∧
        e' !! Menge = Some (VInt 5) ∧ e' !! "Bin" = Some (VStr "B2").
Proof.
  destruct (add_product_merge_frame bolt_nut "Item" (Some "Bin") {[ "Nut" := 3 ]} "Nut"
              0%nat [VStr "Nut"; VStr "B2"] 3
              [ {[ "Item" := VStr "Bolt"; "Menge" := VInt 1 ]} ]
              {[ "Item" := VStr "Nut"; "Bin" := VStr "B2"; "Menge" := VInt 2 ]}
              [ {[ "Item" := VStr "Nut"; "Menge" := VInt 9 ]} ] 2)
    as (e' & Hadd & Hmenge & Hframe & _).
  - reflexivity.
  - lia.
  - reflexivity.
  - reflexivity.
  - repeat constructor.
  - reflexivity.
  - reflexivity.
  - exists e'. split; [exact Hadd|]. split; [exact Hmenge|].
    rewrite Hframe by discriminate. reflexivity.
Defined.

End merge_theorems.

(** ** The pick list over a session *)

Section session_facts.

Implicit Types (e row : gmap string value) (pl pre post : list (gmap string value)).
Implicit Types (quantities : gmap string Z).

Lemma val_eq_eq a b : val_eq a b = true → a = b.
Proof.
  destruct a, b; simpl; try done.
  - by intros ->%String.eqb_eq.
  - by intros ->%Z.eqb_eq.
Qed.

Lemma py_eq_eq a b : py_eq a b = true → a = b.
Proof. destruct a, b; simpl; try done. by intros ->%val_eq_eq. Qed.

Lemma py_eq_refl a : a ≠ Some VNull → py_eq a a = true.
Proof.
  destruct a as [[| |]|]; simpl; try done.
  - intros _. apply String.eqb_refl.
  - intros _. apply Z.eqb_refl.
Qed.

(** *** Quantities stay positive, whatever the table and the columns *)

Lemma add_product_positive df pc lc quantities prod pl pl' :
  Forall positive_quantity pl →
  add_product df pc lc quantities prod pl = Ok pl' →
  Forall positive_quantity pl'.
Proof.
  intros Hpl. unfold add_product.
  destruct (Z.leb_spec (default 0 (quantities !! prod)) 0) as [|Hq]; [by intros [= <-]|].
  destruct (col_index (columns df) pc) as [i|]; [|done].
  destruct (first_match df i prod) as [r|]; [|by intros [= <-]].
  intros Hm.
  destruct (merge_or_append_positive pc _ _ pl Hq
              (build_row_positive (to_dict (columns df) r) lc _ Hq) Hpl)
    as (pl1 & Hpl1 & Hpos).
  rewrite Hpl1 in Hm. by injection Hm as <-.
Qed.

Lemma add_loop_positive df pc lc quantities sel pl :
  Forall positive_quantity pl →
  Forall positive_quantity (add_loop df pc lc quantities sel pl).1.
Proof.
  revert pl. induction sel as [|prod sel IH]; intros pl Hpl; simpl; [done|].
  destruct (add_product df pc lc quantities prod pl) as [pl1|] eqn:Hadd; [|done].
  apply IH. by eapply add_product_positive.
Qed.

(** *** Keys stay distinct, away from the column name [Menge] and from
    missing cells *)

Lemma merge_or_append_keys pc qty row pl pl' :
  pc ≠ Menge →
  merge_or_append pc qty row pl = Ok pl' →
  key pc <$> pl' = key pc <$> pl ∨
  (key pc <$> pl' = (key pc <$> pl) ++ [row !! pc] ∧
   Forall (λ e, py_eq (e !! pc) (row !! pc) = false) pl).
Proof.
  intros Hpc. revert pl'. induction pl as [|e pl IH]; intros pl'; simpl.
  - intros [= <-]. right. by split.
  - destruct (py_eq (e !! pc) (row !! pc)) eqn:He.
    + destruct (val_add _ qty) as [v|]; [|done]. intros [= <-]. left.
      csimpl. unfold key at 1 3. by rewrite lookup_insert_ne.
    + destruct (merge_or_append pc qty row pl) as [pl1|]; [|done]. intros [= <-].
      destruct (IH pl1 eq_refl) as [Hk|[Hk Hall]]; csimpl.
      * left. by rewrite Hk.
      * right. split; [by rewrite Hk|by constructor].
Qed.

Lemma merge_or_append_unique pc qty row pl pl' :
  pc ≠ Menge → row !! pc ≠ Some VNull →
  unique_keys pc pl →
  merge_or_append pc qty row pl = Ok pl' →
  unique_keys pc pl'.
Proof.
  intros Hpc Hrow Hu Hm. unfold unique_keys in *.
  destruct (merge_or_append_keys _ _ _ _ _ Hpc Hm) as [->|[-> Hall]]; [done|].
  apply NoDup_app. split; [done|]. split; [|apply NoDup_singleton].
  intros k Hk ->%list_elem_of_singleton.
  apply list_elem_of_fmap in Hk as (e & He & Hin).
  rewrite Forall_forall in Hall. specialize (Hall e Hin).
  unfold key in He. rewrite <- He, py_eq_refl in Hall; done.
Qed.

Lemma to_dict_from_values n i cols r d :
  (∀ j, (j < n)%nat → cell j r ≠ VNull) →
  (i + length cols ≤ n)%nat →
  (∀ k v, d !! k = Some v → v ≠ VNull) →
  ∀ k v, to_dict_from i cols r d !! k = Some v → v ≠ VNull.
Proof.
  intros Hcells. revert i d. induction cols as [|c cols IH]; intros i d Hlen Hd; simpl; [done|].
  simpl in Hlen. apply IH; [lia|]. intros k v. rewrite lookup_insert.
  case_decide; [|apply Hd]. intros [= <-]. apply Hcells. lia.
Qed.

Lemma build_row_values rec lc qty :
  (∀ k v, rec !! k = Some v → v ≠ VNull) →
  ∀ k v, build_row rec lc qty !! k = Some v → v ≠ VNull.
Proof.
  intros Hrec.
  assert (Hrow : ∀ k v, <[Menge:=VInt qty]> rec !! k = Some v → v ≠ VNull).
  { intros k v. rewrite lookup_insert. case_decide; [by intros [= <-]|apply Hrec]. }
  unfold build_row. destruct lc as [l|]; [|done].
  destruct (String.eqb l ""); [done|].
  destruct (<[Menge:=VInt qty]> rec !! l) as [x|] eqn:Hl; [|done].
  intros k v. rewrite lookup_insert. case_decide; [|apply Hrow].
  intros [= <-]. by eapply Hrow.
Qed.

Lemma first_match_elem df i prod r : first_match df i prod = Some r → r ∈ rows df.
Proof. intros [H _]%List.find_some. by apply list_elem_of_In. Qed.

Lemma add_product_unique df pc lc quantities prod pl pl' :
  pc ≠ Menge → no_missing_cell df →
  unique_keys pc pl →
  add_product df pc lc quantities prod pl = Ok pl' →
  unique_keys pc pl'.
Proof.
  intros Hpc Hdf Hu. unfold add_product.
  destruct (default 0 (quantities !! prod) <=? 0); [by intros [= <-]|].
  destruct (col_index (columns df) pc) as [i|]; [|done].
  destruct (first_match df i prod) as [r|] eqn:Hr; [|by intros [= <-]].
  apply merge_or_append_unique; [done| |done].
  intros Hnull. eapply build_row_values; [|exact Hnull|done].
  apply (to_dict_from_values (length (columns df))); [|simpl; lia|done].
  intros j Hj. apply Hdf; [|done]. by eapply first_match_elem.
Qed.

Lemma add_loop_unique df pc lc quantities sel pl :
  pc ≠ Menge → no_missing_cell df →
  unique_keys pc pl →
  unique_keys pc (add_loop df pc lc quantities sel pl).1.
Proof.
  intros Hpc Hdf. revert pl. induction sel as [|prod sel IH]; intros pl Hu; simpl; [done|].
  destruct (add_product df pc lc quantities prod pl) as [pl1|] eqn:Hadd; [|done].
  apply IH. by eapply add_product_unique.
Qed.

(** Over any run of additions and clearings from the empty pick list the
    quantities are positive; the keys are distinct as well when the product
    column is not called [Menge] and the table has no missing cell. *)
Lemma run_invariant df pc lc acts :
  let pl := ensure_picklist_state (run df pc lc acts None) in
  Forall positive_quantity pl ∧
  (pc ≠ Menge → no_missing_cell df → unique_keys pc pl).
Proof.
  unfold run.
  assert (Hgen : ∀ st,
    Forall positive_quantity (ensure_picklist_state st) ∧
      (pc ≠ Menge → no_missing_cell df → unique_keys pc (ensure_picklist_state st)) →
    Forall positive_quantity (ensure_picklist_state (foldl (step df pc lc) st acts)) ∧
      (pc ≠ Menge → no_missing_cell df →
       unique_keys pc (ensure_picklist_state (foldl (step df pc lc) st acts)))).
  { induction acts as [|a acts IH]; intros st Hst; simpl; [done|].
    apply IH. destruct Hst as [Hpos Huniq]. destruct a as [sel q|]; simpl.
    - unfold add_to_picklist.
      pose proof (add_loop_positive df pc lc q sel _ Hpos) as Hpos'.
      pose proof (λ H1 H2, add_loop_unique df pc lc q sel _ H1 H2 (Huniq H1 H2)) as Huniq'.
      by destruct (add_loop df pc lc q sel (ensure_picklist_state st)).
    - split; [constructor|]. intros _ _. constructor. }
  apply Hgen. simpl. split; [constructor|]. intros _ _. constructor.
Qed.

(** Adding a product of the table twice to a pick list that does not have it
    yet: the first addition appends its entry, the second adds to that
    entry's quantity.  The product column is neither of the two names the
    entry is annotated with, and the product cell is not missing. *)
Lemma add_twice_merges df pc lc prod i r q1 q2 pl :
  pc ≠ Menge → pc ≠ Lagerort_Anzeige →
  col_index (columns df) pc = Some i →
  first_match df i prod = Some r →
  to_dict (columns df) r !! pc ≠ Some VNull →
  0 < q1 → 0 < q2 →
  Forall (λ e, py_eq (e !! pc) (to_dict (columns df) r !! pc) = false) pl →
  let entry := build_row (to_dict (columns df) r) lc q1 in
  add_product df pc lc {[ prod := q1 ]} prod pl = Ok (pl ++ [entry]) ∧
  add_product df pc lc {[ prod := q2 ]} prod (pl ++ [entry]) =
    Ok (pl ++ [<[Menge:=VInt (q1 + q2)]> entry]).
Proof.
  intros Hpc1 Hpc2 Hi Hr Hkey Hq1 Hq2 Hpl entry.
  assert (Hk : ∀ q, build_row (to_dict (columns df) r) lc q !! pc =
                    to_dict (columns df) r !! pc) by (intros q; by apply build_row_other).
  unfold add_product. rewrite !lookup_singleton_eq. simpl.
  destruct (Z.leb_spec q1 0); [lia|]. destruct (Z.leb_spec q2 0); [lia|].
  rewrite Hi, Hr. split.
  - apply merge_or_append_append.
    eapply Forall_impl; [exact Hpl|]. intros e He. simpl. unfold entry. by rewrite Hk.
  - rewrite <- (app_nil_r (pl ++ [entry])), <- !app_assoc. simpl.
    apply merge_or_append_merge.
    + eapply Forall_impl; [exact Hpl|]. intros e He. simpl. by rewrite Hk.
    + unfold entry. rewrite !Hk. by apply py_eq_refl.
    + unfold entry. by rewrite build_row_menge.
Qed.

(** C1, on the code: in the stock list the product column the application
    picks by default is [Menge], the column the quantity is written to.
    Adding the product "5" with quantity 2 and then again with quantity 3
    leaves two entries, of quantities 2 and 3, and none of quantity 5. *)
Theorem add_twice_menge_column :
  guess_column (columns stock) product_candidates = Some "Menge" ∧
  run stock "Menge" None [Add ["5"] {[ "5" := 2 ]}; Add ["5"] {[ "5" := 3 ]}] None =
  Some [ {[ "Menge" := VInt 2; "Ware" := VStr "Bolt"; "Regal" := VStr "A1" ]};
         {[ "Menge" := VInt 3; "Ware" := VStr "Bolt"; "Regal" := VStr "A1" ]} ].
Proof. split; reflexivity. Qed.

(** C2, on the code: with the same table and product column, three
    additions leave two entries with the same value, 4, in the product
    column. *)
Theorem run_menge_column_shares_key :
  run stock "Menge" None
    [Add ["5"] {[ "5" := 4 ]}; Add ["7"] {[ "7" := 2 ]}; Add ["7"] {[ "7" := 2 ]}] None =
  Some [ {[ "Menge" := VInt 4; "Ware" := VStr "Bolt"; "Regal" := VStr "A1" ]};
         {[ "Menge" := VInt 4; "Ware" := VStr "Nut"; "Regal" := VStr "B2" ]} ] ∧
  ¬ unique_keys "Menge"
      [ {[ "Menge" := VInt 4; "Ware" := VStr "Bolt"; "Regal" := VStr "A1" ]};
        {[ "Menge" := VInt 4; "Ware" := VStr "Nut"; "Regal" := VStr "B2" ]} ].
Proof.
  split; [reflexivity|]. unfold unique_keys. intros H.
  apply NoDup_cons in H as [H _]. apply H. left.
Qed.

End session_facts.

(** * Further properties *)

(** ** The column guesser: what a guess can be *)

Section guess_more.

Lemma odict_set_keys {A} k0 (v : A) d k :
  k ∈ (odict_set k0 v d).*1 ↔ k = k0 ∨ k ∈ d.*1.
Proof.
  induction d as [|[k' v'] d IH]; simpl.
  - rewrite list_elem_of_singleton. split; [auto|]. intros [?|H]; [done|].
    by apply elem_of_nil in H.
  - destruct (String.eqb_spec k0 k') as [->|Hne]; csimpl; rewrite !elem_of_cons.
    + tauto.
    + rewrite IH. tauto.
Qed.

Lemma odict_set_NoDup {A} k0 (v : A) d : NoDup d.*1 → NoDup (odict_set k0 v d).*1.
Proof.
  induction d as [|[k' v'] d IH]; simpl; intros Hd.
  - apply NoDup_singleton.
  - apply NoDup_cons in Hd as [Hk' Hd].
    destruct (String.eqb_spec k0 k') as [->|Hne]; csimpl; apply NoDup_cons.
    + done.
    + split; [|by apply IH]. rewrite odict_set_keys. intros [?|?]; [congruence|done].
Qed.

(** In a dict without repeated keys an assignment leaves no other item
    under the assigned key. *)
Lemma odict_set_items_strong {A} k0 (v : A) d k o :
  NoDup d.*1 → (k, o) ∈ odict_set k0 v d → (k, o) = (k0, v) ∨ ((k, o) ∈ d ∧ k ≠ k0).
Proof.
  induction d as [|[k' v'] d IH]; simpl; intros Hd.
  - rewrite list_elem_of_singleton. auto.
  - apply NoDup_cons in Hd as [Hk' Hd].
    destruct (String.eqb_spec k0 k') as [->|Hne]; rewrite !elem_of_cons.
    + intros [?|H]; [auto|]. right. split; [auto|]. intros ->.
      apply Hk'. by apply (list_elem_of_fmap_2 fst _ (k', o)).
    + intros [[= -> ->]|H]; [right; split; [auto|congruence]|].
      destruct (IH Hd H) as [?|[? ?]]; auto.
Qed.

Lemma foldl_odict_NoDup cols d :
  NoDup d.*1 → NoDup (foldl (λ d c, odict_set (lower c) c d) d cols).*1.
Proof.
  revert d. induction cols as [|c cols IH]; intros d Hd; simpl; [done|].
  by apply IH, odict_set_NoDup.
Qed.

(** The item a key ends up with is the last column of that lowercased
    name. *)
Lemma foldl_odict_last cols d k o :
  NoDup d.*1 →
  (k, o) ∈ foldl (λ d c, odict_set (lower c) c d) d cols →
  ((k, o) ∈ d ∧ ∀ c, c ∈ cols → lower c ≠ k) ∨
  (∃ pre post, cols = pre ++ o :: post ∧ k = lower o ∧ ∀ c, c ∈ post → lower c ≠ k).
Proof.
  revert d. induction cols as [|c cols IH]; intros d Hd; simpl.
  - intros H. left. split; [done|]. by intros c ?%elem_of_nil.
  - intros [[H Hcols]|(pre & post & -> & -> & Hpost)]%IH; [|right|by apply odict_set_NoDup].
    + apply odict_set_items_strong in H as [[= -> ->]|[H Hne]]; [|left|done].
      * right. by exists [], cols.
      * split; [done|]. intros c' [->|?]%elem_of_cons; auto.
    + by exists (c :: pre), post.
Qed.

Lemma cols_lower_last columns k o :
  (k, o) ∈ cols_lower columns →
  ∃ pre post, columns = pre ++ o :: post ∧ k = lower o ∧ ∀ c, c ∈ post → lower c ≠ k.
Proof.
  intros [[H _]|H]%foldl_odict_last; [by apply elem_of_nil in H|done|constructor].
Qed.

Lemma foldl_odict_keys cols d k :
  k ∈ (foldl (λ d c, odict_set (lower c) c d) d cols).*1 ↔
  k ∈ d.*1 ∨ ∃ c, c ∈ cols ∧ k = lower c.
Proof.
  revert d. induction cols as [|c cols IH]; intros d; simpl.
  - split; [auto|]. intros [?|(c & Hc & _)]; [done|]. by apply elem_of_nil in Hc.
  - rewrite IH, odict_set_keys. split.
    + intros [[->|?]|(c' & Hc' & ->)]; [right|by left|right].
      * exists c. split; [left|done].
      * exists c'. split; [by right|done].
    + intros [?|(c' & [->|Hc']%elem_of_cons & ->)]; eauto.
Qed.

(** Every column has its lowercased name among the keys of the lookup. *)
Lemma cols_lower_covers columns c :
  c ∈ columns → ∃ o, (lower c, o) ∈ cols_lower columns.
Proof.
  intros Hc.
  assert (lower c ∈ (cols_lower columns).*1) as Hk.
  { apply foldl_odict_keys. right. eauto. }
  apply list_elem_of_fmap in Hk as ([k o] & Hk & Hin). simpl in Hk. subst k. eauto.
Qed.

Lemma scan_columns_Some cand d o :
  scan_columns cand d = Some o → ∃ k, (k, o) ∈ d ∧ is_infix cand k = true.
Proof.
  induction d as [|[k o'] d IH]; simpl; [done|].
  destruct (is_infix cand k) eqn:Hk.
  - intros [= ->]. exists k. split; [left|done].
  - intros (k' & Hin & Hk')%IH. exists k'. split; [by right|done].
Qed.

Lemma scan_columns_None cand d k o :
  scan_columns cand d = None → (k, o) ∈ d → is_infix cand k = false.
Proof.
  induction d as [|[k' o'] d IH]; simpl; [by intros _ ?%elem_of_nil|].
  destruct (is_infix cand k') eqn:Hk; [done|].
  intros Hd [[= -> ->]|Hin]%elem_of_cons; auto.
Qed.

Lemma scan_candidates_Some d candidates o :
  scan_candidates d candidates = Some o →
  ∃ cand, cand ∈ candidates ∧ scan_columns (lower cand) d = Some o.
Proof.
  induction candidates as [|cand rest IH]; simpl; [done|].
  destruct (scan_columns (lower cand) d) as [o'|] eqn:Hs.
  - intros [= ->]. exists cand. split; [left|done].
  - intros (c & Hc & Ho)%IH. exists c. split; [by right|done].
Qed.

Lemma scan_candidates_None d candidates cand :
  scan_candidates d candidates = None → cand ∈ candidates →
  scan_columns (lower cand) d = None.
Proof.
  induction candidates as [|c rest IH]; simpl; [by intros _ ?%elem_of_nil|].
  destruct (scan_columns (lower c) d) eqn:Hs; [done|].
  intros H [->|Hin]%elem_of_cons; auto.
Qed.

(** X1: a guess is always one of the columns, and there is no guess only
    when there is no column. *)
Theorem guess_column_member columns candidates :
  (∀ o, guess_column columns candidates = Some o → o ∈ columns) ∧
  (guess_column columns candidates = None ↔ columns = []).
Proof.
  unfold guess_column. split.
  - intros o. destruct (scan_candidates _ candidates) as [o'|] eqn:Hs.
    + intros [= ->]. apply scan_candidates_Some in Hs as (cand & _ & Hs).
      apply scan_columns_Some in Hs as (k & Hin & _).
      by apply cols_lower_items in Hin as [? _].
    + destruct columns; [done|]. intros [= ->]. left.
  - destruct (scan_candidates _ candidates) as [o'|] eqn:Hs.
    + split; [done|]. intros ->. apply scan_candidates_Some in Hs as (cand & _ & Hs).
      by apply scan_columns_Some in Hs as (k & Hin%elem_of_nil & _).
    + by destruct columns.
Qed.

Lemma guess_column_member_witness : "Regal" ∈ ["Ware"; "Regal"].
Proof.
  apply (proj1 (guess_column_member ["Ware"; "Regal"] ["lager"; "regal"]) "Regal").
  reflexivity.
Defined.

(** X2: what a guess is.  Either some candidate occurs, letter case ignored,
    in the guessed column, and no later column has the same lowercased name;
    or no candidate occurs in any column and the guess is the first
    column. *)
Theorem guess_column_characterised columns candidates o :
  guess_column columns candidates = Some o →
  (∃ cand, cand ∈ candidates ∧ occurs_in_ci cand o ∧
     ∃ pre post, columns = pre ++ o :: post ∧ ∀ c, c ∈ post → lower c ≠ lower o) ∨
  ((∀ cand c, cand ∈ candidates → c ∈ columns → ¬ occurs_in_ci cand c) ∧
   head columns = Some o).
Proof.
  unfold guess_column.
  destruct (scan_candidates _ candidates) as [o'|] eqn:Hs.
  - intros [= ->]. left. apply scan_candidates_Some in Hs as (cand & Hcand & Hs).
    apply scan_columns_Some in Hs as (k & Hin & Hk).
    apply cols_lower_last in Hin as (pre & post & -> & -> & Hpost).
    exists cand. split; [done|]. split; [by apply is_infix_spec|]. eauto.
  - intros Hhead. right. split; [|done]. intros cand c Hcand Hc.
    destruct (cols_lower_covers columns c Hc) as [o' Hin].
    apply not_infix_spec. eapply scan_columns_None; [|exact Hin].
    by eapply scan_candidates_None.
Qed.

Lemma guess_column_characterised_witness :
  (∃ cand, cand ∈ ["item"; "name"] ∧ occurs_in_ci cand "NAME" ∧
     ∃ pre post, ["Name"; "Bin"; "NAME"] = pre ++ "NAME" :: post ∧
                 ∀ c, c ∈ post → lower c ≠ lower "NAME") ∨
  ((∀ cand c, cand ∈ ["item"; "name"] → c ∈ ["Name"; "Bin"; "NAME"] →
      ¬ occurs_in_ci cand c) ∧
   head ["Name"; "Bin"; "NAME"] = Some "NAME").
Proof.
  apply (guess_column_characterised ["Name"; "Bin"; "NAME"] ["item"; "name"] "NAME").
  reflexivity.
Defined.

(** X3: the letter case of candidates written in ASCII letters plays no part
    in the guess: the candidates in lower case, and the candidates in upper
    case, give the guess of the candidates as written. *)
Theorem guess_column_candidate_case columns candidates :
  Forall (λ cand, is_ascii cand = true) candidates →
  guess_column columns (lower <$> candidates) = guess_column columns candidates ∧
  guess_column columns (upper <$> candidates) = guess_column columns candidates.
Proof.
  intros _. unfold guess_column.
  assert (∀ d, scan_candidates d (lower <$> candidates) = scan_candidates d candidates) as Hl.
  { intros d. induction candidates as [|c rest IH]; csimpl; [done|].
    by rewrite lower_idemp, IH. }
  assert (∀ d, scan_candidates d (upper <$> candidates) = scan_candidates d candidates) as Hu.
  { clear Hl. intros d. induction candidates as [|c rest IH]; csimpl; [done|].
    by rewrite lower_upper, IH. }
  by rewrite Hl, Hu.
Qed.

Lemma guess_column_candidate_case_witness :
  upper <$> ["Item"; "Name"] = ["ITEM"; "NAME"] ∧
  is_ascii "größe" = false ∧
  guess_column ["Regal"; "Name"] ["ITEM"; "NAME"] =
  guess_column ["Regal"; "Name"] ["Item"; "Name"].
Proof.
  split; [reflexivity|]. split; [reflexivity|].
  apply (proj2 (guess_column_candidate_case ["Regal"; "Name"] ["Item"; "Name"]
                  ltac:(repeat constructor))).
Defined.

End guess_more.

(** ** The row filter: outcomes and composition *)

Section filter_more.

Lemma col_index_Some_elem cols col i : col_index cols col = Some i → col ∈ cols.
Proof.
  revert i. induction cols as [|c cols IH]; intros i; simpl; [done|].
  destruct (String.eqb_spec c col) as [->|Hne]; [left|].
  destruct (col_index cols col) as [j|]; [|done]. intros _. right. by eapply IH.
Qed.

Lemma col_index_None cols col : col ∉ cols → col_index cols col = None.
Proof.
  intros Hc. destruct (col_index cols col) as [i|] eqn:Hi; [|done].
  by apply col_index_Some_elem in Hi.
Qed.

Lemma series_unknown df col : col ∉ columns df → series df col = Raise KeyError.
Proof. intros H. unfold series. by rewrite col_index_None. Qed.

Lemma series_raise df col e : series df col = Raise e → e = KeyError.
Proof. unfold series. destruct (col_index _ col); by intros [= <-]. Qed.

(** One unknown column makes the loop raise, wherever it stands. *)
Lemma mask_loop_unknown df p cols m c :
  c ∈ cols → c ∉ columns df → mask_loop df p cols m = Raise KeyError.
Proof.
  intros Hc Hbad. revert m. induction cols as [|col cols IH]; intros m; simpl.
  - by apply elem_of_nil in Hc.
  - destruct (series df col) as [vs|e] eqn:Hs.
    + apply elem_of_cons in Hc as [->|Hc]; [|by apply IH].
      by rewrite series_unknown in Hs.
    + by rewrite (series_raise _ _ _ Hs).
Qed.

Lemma filter_search_compiled df term cols p :
  all_space term = false →
  re_compile (strip term) = Some p →
  cols ≠ [] →
  (∀ c, c ∈ cols → c ∈ columns df) →
  filter_search df term cols =
  Some (Ok {| columns := columns df; rows := List.filter (row_hit df p cols) (rows df) |}).
Proof.
  intros Hns Hp Hne Hcols. unfold filter_search.
  rewrite (all_space_false_nonempty _ Hns), (strip_nonempty _ Hns), Hp.
  destruct cols as [|col cols]; [done|].
  rewrite mask_loop_start by done. simpl. by rewrite select_rows_fmap.
Qed.

(** X4: the outcomes of a search for a term that is not blank and is
    interpreted (ordinary characters and dots).  With a non-empty list of
    columns of the table the result is a table with the same columns and a
    sub-sequence of the rows, those hit by the term; with an empty list of
    columns, or a name that is not a column, the call raises [KeyError]. *)
Theorem filter_search_outcome df term cols p :
  all_space term = false →
  re_compile (strip term) = Some p →
  (cols ≠ [] → (∀ c, c ∈ cols → c ∈ columns df) →
     filter_search df term cols =
       Some (Ok {| columns := columns df;
                   rows := List.filter (row_hit df p cols) (rows df) |}) ∧
     List.filter (row_hit df p cols) (rows df) `sublist_of` rows df) ∧
  (cols = [] ∨ (∃ c, c ∈ cols ∧ c ∉ columns df) →
     filter_search df term cols = Some (Raise KeyError)).
Proof.
  intros Hns Hp. split.
  - intros Hne Hcols. split; [by apply filter_search_compiled|apply filter_sublist].
  - intros Hbad. unfold filter_search.
    rewrite (all_space_false_nonempty _ Hns), (strip_nonempty _ Hns), Hp.
    destruct Hbad as [->|(c & Hc & Hbad)]; [done|].
    by rewrite (mask_loop_unknown df p cols MFalse c).
Qed.

Lemma filter_search_outcome_witness :
  filter_search bolt_nut "b.lt" ["Item"; "Price"] = Some (Raise KeyError).
Proof.
  refine (proj2 (filter_search_outcome bolt_nut "b.lt" ["Item"; "Price"]
                   [Lit "b"; AnyChar; Lit "l"; Lit "t"] eq_refl eq_refl) _).
  right. exists "Price". split; [right; left|].
  intros H. repeat (apply elem_of_cons in H as [H|H]; [discriminate H|]).
  by apply elem_of_nil in H.
Defined.

Lemma filter_sublist_mono {A} (f g : A → bool) l :
  (∀ x, f x = true → g x = true) → List.filter f l `sublist_of` List.filter g l.
Proof.
  intros Hfg. induction l as [|x l IH]; simpl; [constructor|].
  destruct (f x) eqn:Hf.
  - rewrite (Hfg x Hf). by constructor.
  - destruct (g x); [by constructor|done].
Qed.

(** X5: searching more columns never loses a row: the rows found in a list
    of columns are a sub-sequence of the rows found in any list of columns
    that contains them (the product column against all columns). *)
Theorem filter_search_more_columns df term cols1 cols2 p :
  all_space term = false →
  re_compile (strip term) = Some p →
  cols1 ≠ [] →
  (∀ c, c ∈ cols1 → c ∈ cols2) →
  (∀ c, c ∈ cols2 → c ∈ columns df) →
  ∃ kept1 kept2,
    filter_search df term cols1 = Some (Ok {| columns := columns df; rows := kept1 |}) ∧
    filter_search df term cols2 = Some (Ok {| columns := columns df; rows := kept2 |}) ∧
    kept1 `sublist_of` kept2.
Proof.
  intros Hns Hp Hne H12 H2.
  exists (List.filter (row_hit df p cols1) (rows df)),
         (List.filter (row_hit df p cols2) (rows df)).
  split; [apply filter_search_compiled; auto|].
  split.
  - apply filter_search_compiled; auto. destruct cols1 as [|c ?]; [done|].
    intros ->. specialize (H12 c). by apply elem_of_nil in H12; [|left].
  - apply filter_sublist_mono. intros r. unfold row_hit. rewrite !existsb_exists.
    intros (c & Hc%list_elem_of_In & Hhit). exists c.
    split; [by apply list_elem_of_In, H12|done].
Qed.

Lemma filter_search_more_columns_witness :
  ∃ kept1 kept2,
    filter_search bolt_nut "b" ["Item"] =
      Some (Ok {| columns := columns bolt_nut; rows := kept1 |}) ∧
    filter_search bolt_nut "b" ["Item"; "Bin"] =
      Some (Ok {| columns := columns bolt_nut; rows := kept2 |}) ∧
    kept1 `sublist_of` kept2.
Proof.
  apply (filter_search_more_columns bolt_nut "b" ["Item"] ["Item"; "Bin"] [Lit "b"]);
    [reflexivity|reflexivity|discriminate| |intros c Hc; exact Hc].
  intros c ->%list_elem_of_singleton. left.
Defined.

Lemma filter_filter {A} (f g : A → bool) l :
  List.filter g (List.filter f l) = List.filter (λ x, f x && g x) l.
Proof.
  induction l as [|x l IH]; simpl; [done|].
  destruct (f x); simpl; [|done]. destruct (g x); by rewrite IH.
Qed.

(** X6: a search in the result of a search keeps the rows hit by both
    terms, so that two searches give the same rows in either order and a
    repeated search changes nothing. *)
Theorem filter_search_twice df t1 cols1 p1 t2 cols2 p2 :
  all_space t1 = false → re_compile (strip t1) = Some p1 →
  cols1 ≠ [] → (∀ c, c ∈ cols1 → c ∈ columns df) →
  all_space t2 = false → re_compile (strip t2) = Some p2 →
  cols2 ≠ [] → (∀ c, c ∈ cols2 → c ∈ columns df) →
  ∃ df1 df2,
    filter_search df t1 cols1 = Some (Ok df1) ∧
    filter_search df t2 cols2 = Some (Ok df2) ∧
    filter_search df1 t2 cols2 =
      Some (Ok {| columns := columns df;
                  rows := List.filter (λ r, row_hit df p1 cols1 r && row_hit df p2 cols2 r)
                            (rows df) |}) ∧
    filter_search df1 t2 cols2 = filter_search df2 t1 cols1 ∧
    filter_search df1 t1 cols1 = Some (Ok df1).
Proof.
  intros Hn1 Hp1 Hne1 Hc1 Hn2 Hp2 Hne2 Hc2.
  eexists _, _.
  split; [by apply filter_search_compiled|].
  split; [by apply filter_search_compiled|].
  rewrite !(filter_search_compiled _ t2 cols2 p2), !(filter_search_compiled _ t1 cols1 p1)
    by done.
  simpl. unfold row_hit, cell_at. simpl. rewrite !filter_filter.
  split; [done|]. split.
  - do 3 f_equal. apply List.filter_ext. intros r. apply andb_comm.
  - do 3 f_equal. apply List.filter_ext. intros r. apply andb_diag.
Qed.

Lemma filter_search_twice_witness :
  ∃ df1 df2,
    filter_search bolt_nut "t" ["Item"] = Some (Ok df1) ∧
    filter_search bolt_nut "a" ["Bin"] = Some (Ok df2) ∧
    filter_search df1 "a" ["Bin"] =
      Some (Ok {| columns := ["Item"; "Bin"]; rows := [[VStr "Bolt"; VStr "A1"]] |}) ∧
    filter_search df1 "a" ["Bin"] = filter_search df2 "t" ["Item"] ∧
    filter_search df1 "t" ["Item"] = Some (Ok df1).
Proof.
  apply (filter_search_twice bolt_nut "t" ["Item"] [Lit "t"] "a" ["Bin"] [Lit "a"]);
    try reflexivity; try discriminate.
  - intros c ->%list_elem_of_singleton. left.
  - intros c ->%list_elem_of_singleton. right. left.
Defined.

Lemma rstrip_idemp s : rstrip (rstrip s) = rstrip s.
Proof.
  induction s as [|c s IH]; simpl; [done|].
  destruct (rstrip s) as [|c' s'] eqn:Hs.
  - destruct (is_space c) eqn:Hc; simpl; [done|]. by rewrite Hc.
  - change (rstrip (String c (String c' s')) = String c (String c' s')).
    simpl in IH. simpl. by rewrite IH.
Qed.

Lemma lstrip_rstrip_lstrip s : lstrip (rstrip (lstrip s)) = rstrip (lstrip s).
Proof.
  induction s as [|c s IH]; simpl; [done|].
  destruct (is_space c) eqn:Hc; [done|]. simpl.
  destruct (rstrip s); simpl; rewrite ?Hc; simpl; by rewrite ?Hc.
Qed.

Lemma strip_idemp s : strip (strip s) = strip s.
Proof. unfold strip. by rewrite lstrip_rstrip_lstrip, rstrip_idemp. Qed.

(** X7: white space around the term plays no part in the search. *)
Theorem filter_search_strip df term cols :
  filter_search df (strip term) cols = filter_search df term cols.
Proof.
  unfold filter_search. rewrite strip_idemp.
  destruct (String.eqb_spec (strip term) "") as [He|Hne].
  - by destruct (String.eqb term "").
  - destruct (String.eqb_spec term "") as [->|_]; [done|]. done.
Qed.

End filter_more.

(** ** The pick list: what additions and clearings keep *)

Section picklist_more.

Implicit Types (e row : gmap string value) (pl pre post : list (gmap string value)).
Implicit Types (quantities : gmap string Z) (st : session).

Lemma step_positive df pc lc st a :
  Forall positive_quantity (ensure_picklist_state st) →
  Forall positive_quantity (ensure_picklist_state (step df pc lc st a)).
Proof.
  intros Hst. destruct a as [sel q|]; simpl; [|constructor].
  unfold add_to_picklist.
  pose proof (add_loop_positive df pc lc q sel _ Hst) as H.
  by destruct (add_loop df pc lc q sel (ensure_picklist_state st)).
Qed.

Lemma step_unique df pc lc st a :
  pc ≠ Menge → no_missing_cell df →
  unique_keys pc (ensure_picklist_state st) →
  unique_keys pc (ensure_picklist_state (step df pc lc st a)).
Proof.
  intros Hpc Hdf Hst. destruct a as [sel q|]; simpl; [|constructor].
  unfold add_to_picklist.
  pose proof (add_loop_unique df pc lc q sel _ Hpc Hdf Hst) as H.
  by destruct (add_loop df pc lc q sel (ensure_picklist_state st)).
Qed.

(** X8: additions and clearings keep, from any state of the session that
    has them, the two properties of a pick list: every entry has a positive
    integer quantity; and, when the product column is not called [Menge] and
    no cell of the table is missing, no two entries have the same value in
    the product column. *)
Theorem run_keeps_invariants df pc lc acts st :
  Forall positive_quantity (ensure_picklist_state st) →
  Forall positive_quantity (ensure_picklist_state (run df pc lc acts st)) ∧
  (pc ≠ Menge → no_missing_cell df →
   unique_keys pc (ensure_picklist_state st) →
   unique_keys pc (ensure_picklist_state (run df pc lc acts st))).
Proof.
  unfold run. revert st. induction acts as [|a acts IH]; intros st Hpos; simpl.
  - done.
  - destruct (IH (step df pc lc st a) (step_positive df pc lc st a Hpos)) as [H1 H2].
    split; [done|]. intros Hpc Hdf Hu. apply H2; [done..|]. by apply step_unique.
Qed.

Lemma bolt_nut_no_missing_cell : no_missing_cell bolt_nut.
Proof.
  intros r i Hr Hi. simpl in Hr, Hi.
  repeat (apply elem_of_cons in Hr as [->|Hr]); [| |by apply elem_of_nil in Hr];
    (destruct i as [|[|i]]; [discriminate|discriminate|lia]).
Qed.

Lemma run_keeps_invariants_witness :
  unique_keys "Item"
    (ensure_picklist_state
       (run bolt_nut "Item" (Some "Bin")
          [Add ["Nut"; "Bolt"] {[ "Nut" := 1; "Bolt" := 2 ]}; Add ["Nut"] {[ "Nut" := 4 ]}]
          (Some [ {[ "Item" := VStr "Bolt"; "Menge" := VInt 1 ]} ]))).
Proof.
  refine (proj2 (run_keeps_invariants bolt_nut "Item" (Some "Bin")
                   [Add ["Nut"; "Bolt"] {[ "Nut" := 1; "Bolt" := 2 ]};
                    Add ["Nut"] {[ "Nut" := 4 ]}]
                   (Some [ {[ "Item" := VStr "Bolt"; "Menge" := VInt 1 ]} ]) _) _ _ _).
  - constructor; [|constructor]. exists 1. split; [reflexivity|lia].
  - discriminate.
  - apply bolt_nut_no_missing_cell.
  - apply NoDup_singleton.
Defined.

(** X9: away from the two field names the entry is annotated with, adding
    the same product twice to a pick list that does not have it gives the
    old entries followed by one entry for the product, with the sum of the
    two quantities, and raises nothing. *)
Theorem add_to_picklist_twice df pc lc prod i r q1 q2 st :
  pc ≠ Menge → pc ≠ Lagerort_Anzeige →
  col_index (columns df) pc = Some i →
  first_match df i prod = Some r →
  to_dict (columns df) r !! pc ≠ Some VNull →
  0 < q1 → 0 < q2 →
  Forall (λ e, py_eq (e !! pc) (to_dict (columns df) r !! pc) = false)
    (ensure_picklist_state st) →
  let entry := build_row (to_dict (columns df) r) lc q1 in
  let st1 := (add_to_picklist df pc lc [prod] {[ prod := q1 ]} st).1 in
  add_to_picklist df pc lc [prod] {[ prod := q1 ]} st =
    (Some (ensure_picklist_state st ++ [entry]), None) ∧
  add_to_picklist df pc lc [prod] {[ prod := q2 ]} st1 =
    (Some (ensure_picklist_state st ++ [<[Menge:=VInt (q1 + q2)]> entry]), None).
Proof.
  intros Hpc1 Hpc2 Hi Hr Hkey Hq1 Hq2 Hpl entry st1.
  destruct (add_twice_merges df pc lc prod i r q1 q2 _ Hpc1 Hpc2 Hi Hr Hkey Hq1 Hq2 Hpl)
    as [H1 H2].
  assert (add_to_picklist df pc lc [prod] {[prod := q1]} st =
          (Some (ensure_picklist_state st ++ [entry]), None)) as Hfirst.
  { unfold add_to_picklist, add_loop. by rewrite H1. }
  split; [done|]. subst st1 entry. rewrite Hfirst.
  unfold add_to_picklist, add_loop. cbn [fst ensure_picklist_state default id].
  by rewrite H2.
Qed.

Lemma add_to_picklist_twice_witness :
  add_to_picklist bolt_nut "Item" (Some "Bin") ["Bolt"] {[ "Bolt" := 3 ]}
    (add_to_picklist bolt_nut "Item" (Some "Bin") ["Bolt"] {[ "Bolt" := 2 ]} None).1 =
  (Some [ <[Menge:=VInt 5]>
            (build_row (to_dict (columns bolt_nut) [VStr "Bolt"; VStr "A1"]) (Some "Bin") 2) ],
   None).
Proof.
  refine (proj2 (add_to_picklist_twice bolt_nut "Item" (Some "Bin") "Bolt" 0%nat
                   [VStr "Bolt"; VStr "A1"] 2 3 None _ _ eq_refl eq_refl _ _ _ _));
    try discriminate; try lia.
  constructor.
Defined.

Lemma merge_or_append_length pc qty row pl pl' :
  merge_or_append pc qty row pl = Ok pl' →
  (length pl ≤ length pl' ≤ S (length pl))%nat.
Proof.
  revert pl'. induction pl as [|e pl IH]; intros pl'; simpl.
  - intros [= <-]. simpl. lia.
  - destruct (py_eq (e !! pc) (row !! pc)).
    + destruct (val_add _ qty); [|done]. intros [= <-]. simpl. lia.
    + destruct (merge_or_append pc qty row pl) as [pl1|]; [|done]. intros [= <-].
      specialize (IH pl1 eq_refl). simpl. lia.
Qed.

Lemma add_product_grows df pc lc quantities prod pl pl' :
  add_product df pc lc quantities prod pl = Ok pl' →
  (length pl ≤ length pl' ≤ S (length pl))%nat ∧
  (pc ≠ Menge → key pc <$> pl `prefix_of` key pc <$> pl').
Proof.
  unfold add_product.
  destruct (default 0 (quantities !! prod) <=? 0); [intros [= <-]; split; [lia|done]|].
  destruct (col_index (columns df) pc) as [i|]; [|done].
  destruct (first_match df i prod) as [r|]; [|intros [= <-]; split; [lia|done]].
  intros Hm. split; [by eapply merge_or_append_length|].
  intros Hpc. destruct (merge_or_append_keys _ _ _ _ _ Hpc Hm) as [->|[-> _]]; [done|].
  by apply prefix_app_r.
Qed.

Lemma add_loop_grows df pc lc quantities sel pl :
  (length pl ≤ length (add_loop df pc lc quantities sel pl).1 ≤ length pl + length sel)%nat ∧
  (pc ≠ Menge → key pc <$> pl `prefix_of` key pc <$> (add_loop df pc lc quantities sel pl).1).
Proof.
  revert pl. induction sel as [|prod sel IH]; intros pl; simpl.
  - split; [lia|done].
  - destruct (add_product df pc lc quantities prod pl) as [pl1|] eqn:Hadd; simpl.
    + destruct (add_product_grows _ _ _ _ _ _ _ Hadd) as [Hlen Hpre].
      destruct (IH pl1) as [Hlen1 Hpre1]. split; [lia|].
      intros Hpc. etrans; [by apply Hpre|by apply Hpre1].
    + split; [lia|done].
Qed.

(** X10: an addition never removes an entry and appends at most one entry
    for each selected product; when the product column is not called
    [Menge], the entries present before keep their keys and their places,
    the new ones coming after them. *)
Theorem add_to_picklist_grows df pc lc sel quantities st :
  let pl := ensure_picklist_state st in
  let pl' := ensure_picklist_state (add_to_picklist df pc lc sel quantities st).1 in
  (length pl ≤ length pl' ≤ length pl + length sel)%nat ∧
  (pc ≠ Menge → key pc <$> pl `prefix_of` key pc <$> pl').
Proof.
  intros pl pl'. unfold pl', add_to_picklist.
  pose proof (add_loop_grows df pc lc quantities sel pl) as H. fold pl.
  by destruct (add_loop df pc lc quantities sel pl).
Qed.

Lemma add_to_picklist_grows_witness :
  key "Item" <$> [ ({[ "Item" := VStr "Nut"; "Menge" := VInt 1 ]} : gmap string value) ]
  `prefix_of`
  key "Item" <$> ensure_picklist_state
    (add_to_picklist bolt_nut "Item" None ["Bolt"; "Nut"] {[ "Bolt" := 1; "Nut" := 1 ]}
       (Some [ {[ "Item" := VStr "Nut"; "Menge" := VInt 1 ]} ])).1.
Proof.
  apply (proj2 (add_to_picklist_grows bolt_nut "Item" None ["Bolt"; "Nut"]
                  {[ "Bolt" := 1; "Nut" := 1 ]}
                  (Some [ {[ "Item" := VStr "Nut"; "Menge" := VInt 1 ]} ]))).
  discriminate.
Defined.

Lemma step_ensure df pc lc st1 st2 a :
  ensure_picklist_state st1 = ensure_picklist_state st2 →
  step df pc lc st1 a = step df pc lc st2 a.
Proof.
  intros H. destruct a as [sel q|]; simpl; [|done].
  unfold add_to_picklist. by rewrite H.
Qed.

Lemma run_ensure df pc lc acts st1 st2 :
  ensure_picklist_state st1 = ensure_picklist_state st2 →
  ensure_picklist_state (run df pc lc acts st1) =
  ensure_picklist_state (run df pc lc acts st2).
Proof.
  unfold run. destruct acts as [|a acts]; simpl; [done|].
  intros H. by rewrite (step_ensure df pc lc st1 st2 a H).
Qed.

(** X11: clearing forgets: the pick list after a run is the pick list of the
    actions that come after the last clearing, started from an empty
    session, whatever happened before. *)
Theorem run_clear_forgets df pc lc before after st :
  ensure_picklist_state (run df pc lc (before ++ Clear :: after) st) =
  ensure_picklist_state (run df pc lc after None).
Proof.
  unfold run. rewrite foldl_app. simpl. by apply run_ensure.
Qed.

End picklist_more.

(** ** The pick list: quantities, entries and the product column *)

Section add_more.

Implicit Types (e row : gmap string value) (pl pre post : list (gmap string value)).
Implicit Types (quantities : gmap string Z) (st : session).

Lemma total_quantity_app pl1 pl2 :
  total_quantity (pl1 ++ pl2) = total_quantity pl1 + total_quantity pl2.
Proof. induction pl1 as [|e pl1 IH]; simpl; [done|]. rewrite IH. lia. Qed.

Lemma merge_or_append_total pc qty row pl pl' :
  Forall positive_quantity pl → menge_of row = qty →
  merge_or_append pc qty row pl = Ok pl' →
  total_quantity pl' = total_quantity pl + qty.
Proof.
  intros Hpl Hrow. revert pl'. induction Hpl as [|e pl He _ IH]; intros pl'; simpl.
  - intros [= <-]. simpl. lia.
  - destruct (py_eq (e !! pc) (row !! pc)).
    + destruct He as (n & Hn & _). rewrite Hn. simpl. intros [= <-]. simpl.
      unfold menge_of at 1 2. rewrite lookup_insert_eq, Hn. lia.
    + destruct (merge_or_append pc qty row pl) as [pl1|]; [|done]. intros [= <-].
      simpl. rewrite (IH pl1 eq_refl). lia.
Qed.

Lemma add_product_total df pc lc quantities prod pl pl' :
  Forall positive_quantity pl →
  add_product df pc lc quantities prod pl = Ok pl' →
  total_quantity pl' = total_quantity pl + taken_quantity df pc quantities prod.
Proof.
  intros Hpl. unfold add_product, taken_quantity.
  destruct (default 0 (quantities !! prod) <=? 0); [intros [= <-]; lia|].
  destruct (col_index (columns df) pc) as [i|]; [|done].
  destruct (first_match df i prod) as [r|]; [|intros [= <-]; lia].
  apply merge_or_append_total; [done|]. unfold menge_of. by rewrite build_row_menge.
Qed.

Lemma add_product_raise df pc lc quantities prod pl (err : exn) :
  Forall positive_quantity pl →
  add_product df pc lc quantities prod pl = Raise err →
  col_index (columns df) pc = None ∧ err = KeyError.
Proof.
  intros Hpl. unfold add_product.
  destruct (Z.leb_spec (default 0 (quantities !! prod)) 0) as [|Hq]; [done|].
  destruct (col_index (columns df) pc) as [i|]; [|by intros [= <-]].
  destruct (first_match df i prod) as [r|]; [|done]. intros Hm.
  destruct (merge_or_append_positive pc _ _ pl Hq
              (build_row_positive (to_dict (columns df) r) lc _ Hq) Hpl) as (pl1 & Hpl1 & _).
  congruence.
Qed.

Lemma taken_quantity_unknown df pc quantities prod :
  col_index (columns df) pc = None → taken_quantity df pc quantities prod = 0.
Proof.
  intros H. unfold taken_quantity. rewrite H.
  by destruct (default 0 (quantities !! prod) <=? 0).
Qed.

Lemma add_loop_total df pc lc quantities sel pl :
  Forall positive_quantity pl →
  total_quantity (add_loop df pc lc quantities sel pl).1 =
  total_quantity pl + foldr (λ prod s, taken_quantity df pc quantities prod + s) 0 sel.
Proof.
  revert pl. induction sel as [|prod sel IH]; intros pl Hpl; simpl; [lia|].
  destruct (add_product df pc lc quantities prod pl) as [pl1|err] eqn:Hadd; simpl.
  - rewrite IH by by eapply add_product_positive.
    rewrite (add_product_total _ _ _ _ _ _ _ Hpl Hadd). lia.
  - apply add_product_raise in Hadd as [Hnone _]; [|done].
    rewrite (taken_quantity_unknown _ _ _ _ Hnone).
    assert (foldr (λ prod s, taken_quantity df pc quantities prod + s) 0 sel = 0) as ->; [|lia].
    clear IH. induction sel as [|p sel IH]; simpl; [done|].
    rewrite IH, (taken_quantity_unknown _ _ _ _ Hnone). lia.
Qed.

(** X12: nothing is lost or invented in the quantities: an addition raises
    the sum of the quantities of the pick list by exactly the quantities of
    the selected products that are positive and found in the table, whether
    they are merged or appended, and whatever the product column is. *)
Theorem add_to_picklist_total df pc lc sel quantities st :
  Forall positive_quantity (ensure_picklist_state st) →
  total_quantity (ensure_picklist_state (add_to_picklist df pc lc sel quantities st).1) =
  total_quantity (ensure_picklist_state st) +
  foldr (λ prod s, taken_quantity df pc quantities prod + s) 0 sel.
Proof.
  intros Hst. unfold add_to_picklist.
  pose proof (add_loop_total df pc lc quantities sel _ Hst) as H.
  by destruct (add_loop df pc lc quantities sel (ensure_picklist_state st)).
Qed.

Lemma add_to_picklist_total_witness :
  total_quantity (ensure_picklist_state
    (add_to_picklist stock "Menge" None ["5"; "7"; "9"] {[ "5" := 2; "7" := 2; "9" := 1 ]}
       (Some [ {[ "Menge" := VInt 2 ]} ])).1) = 6.
Proof.
  etrans.
  - apply (add_to_picklist_total stock "Menge" None ["5"; "7"; "9"]
             {[ "5" := 2; "7" := 2; "9" := 1 ]} (Some [ {[ "Menge" := VInt 2 ]} ])).
    constructor; [|constructor]. exists 2. split; [reflexivity|lia].
  - vm_compute. reflexivity.
Defined.

Lemma add_loop_unknown_column df pc lc quantities sel pl :
  pc ∉ columns df →
  add_loop df pc lc quantities sel pl =
  (pl, if existsb (λ prod, 0 <? default 0 (quantities !! prod)) sel
       then Some KeyError else None).
Proof.
  intros Hpc%col_index_None. induction sel as [|prod sel IH]; simpl; [done|].
  unfold add_product. rewrite Hpc.
  destruct (Z.leb_spec (default 0 (quantities !! prod)) 0) as [Hq|Hq].
  - rewrite IH. by destruct (Z.ltb_spec 0 (default 0 (quantities !! prod))); [lia|].
  - by destruct (Z.ltb_spec 0 (default 0 (quantities !! prod))); [|lia].
Qed.

(** X13: with a product column that is not a column of the table the pick
    list stays as it was; the call raises [KeyError] when some selected
    product has a positive quantity, and nothing otherwise. *)
Theorem add_to_picklist_unknown_column df pc lc sel quantities st :
  pc ∉ columns df →
  ((∃ prod, prod ∈ sel ∧ 0 < default 0 (quantities !! prod)) →
     add_to_picklist df pc lc sel quantities st =
       (Some (ensure_picklist_state st), Some KeyError)) ∧
  ((∀ prod, prod ∈ sel → default 0 (quantities !! prod) ≤ 0) →
     add_to_picklist df pc lc sel quantities st = (Some (ensure_picklist_state st), None)).
Proof.
  intros Hpc. unfold add_to_picklist. rewrite add_loop_unknown_column by done. split.
  - intros (prod & Hin & Hq).
    assert (existsb (λ prod, 0 <? default 0 (quantities !! prod)) sel = true) as ->; [|done].
    apply existsb_exists. exists prod. split; [by apply list_elem_of_In|].
    by apply Z.ltb_lt.
  - intros Hall.
    destruct (existsb (λ prod, 0 <? default 0 (quantities !! prod)) sel) eqn:Hex; [|done].
    apply existsb_exists in Hex as (prod & Hin%list_elem_of_In & Hq%Z.ltb_lt).
    specialize (Hall prod Hin). lia.
Qed.

Lemma add_to_picklist_unknown_column_witness :
  add_to_picklist bolt_nut "Artikel" None ["Nut"; "Bolt"] {[ "Bolt" := 1 ]} None =
  (Some [], Some KeyError).
Proof.
  assert (Hpc : "Artikel" ∉ columns bolt_nut).
  { intros H. repeat (apply elem_of_cons in H as [H|H]; [discriminate H|]).
    by apply elem_of_nil in H. }
  apply (proj1 (add_to_picklist_unknown_column bolt_nut "Artikel" None ["Nut"; "Bolt"]
                  {[ "Bolt" := 1 ]} None Hpc)).
  exists "Bolt". split; [right; left|]. vm_compute. reflexivity.
Defined.

Lemma to_dict_from_notin i cols r d c :
  c ∉ cols → to_dict_from i cols r d !! c = d !! c.
Proof.
  revert i d. induction cols as [|c' cols IH]; intros i d Hc; simpl; [done|].
  apply not_elem_of_cons in Hc as [Hne Hc]. rewrite IH by done.
  by rewrite lookup_insert_ne.
Qed.

Lemma to_dict_from_index i cols r d c j :
  NoDup cols → col_index cols c = Some j →
  to_dict_from i cols r d !! c = Some (cell (i + j) r).
Proof.
  intros Hnd. revert i j d. induction Hnd as [|c' cols Hc' _ IH]; intros i j d; simpl; [done|].
  destruct (String.eqb_spec c' c) as [->|Hne].
  - intros [= <-]. rewrite to_dict_from_notin by done.
    rewrite lookup_insert_eq. do 2 f_equal. lia.
  - destruct (col_index cols c) as [j'|] eqn:Hj; [|done]. intros [= <-].
    rewrite (IH (S i) j') by done. do 2 f_equal. lia.
Qed.

(** With column names that are all different, the dict of a row has every
    cell under its column name. *)
Lemma to_dict_index cols r c j :
  NoDup cols → col_index cols c = Some j → to_dict cols r !! c = Some (cell j r).
Proof. intros Hnd Hj. unfold to_dict. by rewrite (to_dict_from_index 0 cols r ∅ c j). Qed.

(** X14: a product that is found in the table and has no entry yet gets a
    new entry at the end of the pick list.  The entry carries the quantity
    and is otherwise a copy of the first row that reads as the product: each
    column other than the two annotation names has the row's cell, and the
    product column reads as the selected product.  (The column names are all
    different, and the product column is not one of the two annotation
    names.) *)
Theorem add_product_appends_copy df pc lc quantities prod i r qty pl :
  NoDup (columns df) →
  pc ≠ Menge → pc ≠ Lagerort_Anzeige →
  col_index (columns df) pc = Some i →
  quantities !! prod = Some qty → 0 < qty →
  first_match df i prod = Some r →
  Forall (λ e, py_eq (e !! pc) (Some (cell i r)) = false) pl →
  ∃ entry,
    add_product df pc lc quantities prod pl = Ok (pl ++ [entry]) ∧
    r ∈ rows df ∧
    entry !! Menge = Some (VInt qty) ∧
    (∀ c j, col_index (columns df) c = Some j → c ≠ Menge → c ≠ Lagerort_Anzeige →
       entry !! c = Some (cell j r)) ∧
    ∃ v, entry !! pc = Some v ∧ py_str v = prod.
Proof.
  intros Hnd Hpc1 Hpc2 Hi Hq Hpos Hr Hpl.
  exists (build_row (to_dict (columns df) r) lc qty).
  assert (Hcopy : ∀ c j, col_index (columns df) c = Some j →
            c ≠ Menge → c ≠ Lagerort_Anzeige →
            build_row (to_dict (columns df) r) lc qty !! c = Some (cell j r)).
  { intros c j Hj H1 H2. rewrite build_row_other by done. by apply to_dict_index. }
  split; [|split; [|split; [|split]]].
  - unfold add_product. rewrite Hq. simpl. destruct (Z.leb_spec qty 0); [lia|].
    rewrite Hi, Hr. apply merge_or_append_append.
    eapply Forall_impl; [exact Hpl|]. intros e He. simpl. by rewrite (Hcopy pc i).
  - by eapply first_match_elem.
  - apply build_row_menge.
  - exact Hcopy.
  - exists (cell i r). split; [by apply Hcopy|].
    apply List.find_some in Hr as [_ Hr]. by apply String.eqb_eq.
Qed.

Lemma add_product_appends_copy_witness :
  ∃ entry,
    add_product bolt_nut "Item" (Some "Bin") {[ "Nut" := 4 ]} "Nut"
      [ {[ "Item" := VStr "Bolt"; "Menge" := VInt 1 ]} ] =
      Ok ([ {[ "Item" := VStr "Bolt"; "Menge" := VInt 1 ]} ] ++ [entry]) ∧
    entry !! "Bin" = Some (VStr "B2").
Proof.
  destruct (add_product_appends_copy bolt_nut "Item" (Some "Bin") {[ "Nut" := 4 ]} "Nut"
              0%nat [VStr "Nut"; VStr "B2"] 4
              [ {[ "Item" := VStr "Bolt"; "Menge" := VInt 1 ]} ])
    as (entry & Hadd & _ & _ & Hcopy & _).
  - repeat constructor; intros H;
      repeat (apply elem_of_cons in H as [H|H]; [discriminate H|]);
      by apply elem_of_nil in H.
  - discriminate.
  - discriminate.
  - reflexivity.
  - reflexivity.
  - lia.
  - reflexivity.
  - repeat constructor.
  - exists entry. split; [exact Hadd|].
    apply (Hcopy "Bin" 1%nat); [reflexivity|discriminate|discriminate].
Defined.

End add_more.

(** ** The products offered, the column order and the loading of the table *)

Section script_more.

Lemma push_new_elem acc c x : x ∈ push_new acc c ↔ x ∈ acc ∨ x = c.
Proof.
  unfold push_new. case_bool_decide as Hc.
  - split; [auto|]. by intros [?| ->].
  - by rewrite elem_of_app, list_elem_of_singleton.
Qed.

Lemma push_new_NoDup acc c : NoDup acc → NoDup (push_new acc c).
Proof.
  intros Hacc. unfold push_new. case_bool_decide as Hc; [done|].
  apply NoDup_app. split; [done|]. split; [|apply NoDup_singleton].
  by intros x Hx ->%list_elem_of_singleton.
Qed.

Lemma foldl_push_new_elem l acc x : x ∈ foldl push_new acc l ↔ x ∈ acc ∨ x ∈ l.
Proof.
  revert acc. induction l as [|c l IH]; intros acc; simpl.
  - split; [auto|]. intros [?|H]; [done|]. by apply elem_of_nil in H.
  - rewrite IH, push_new_elem, elem_of_cons. tauto.
Qed.

Lemma foldl_push_new_NoDup l acc : NoDup acc → NoDup (foldl push_new acc l).
Proof.
  revert acc. induction l as [|c l IH]; intros acc Hacc; simpl; [done|].
  by apply IH, push_new_NoDup.
Qed.

Lemma find_is_Some {A} (f : A → bool) l x : x ∈ l → f x = true → is_Some (List.find f l).
Proof.
  induction l as [|y l IH]; [by intros ?%elem_of_nil|]. simpl.
  destruct (f y) eqn:Hy; [eauto|].
  intros [->|Hx]%elem_of_cons Hfx; [congruence|auto].
Qed.

(** X15: the products offered for selection.  No product is offered twice;
    for a product column of the table the offered products are exactly the
    texts of the product cells of the rows; and an addition takes the whole
    quantity of an offered product that has a positive quantity, and nothing
    of a product that is not offered. *)
Theorem available_products_spec df pc :
  pc ∈ columns df →
  NoDup (available_products df pc) ∧
  (∀ prod, prod ∈ available_products df pc ↔
           ∃ r, r ∈ rows df ∧ py_str (cell_at df pc r) = prod) ∧
  (∀ quantities prod qty, quantities !! prod = Some qty → 0 < qty →
     taken_quantity df pc quantities prod =
       if bool_decide (prod ∈ available_products df pc) then qty else 0).
Proof.
  intros Hpc.
  assert (Hoffered : ∀ prod, prod ∈ available_products df pc ↔
                       ∃ r, r ∈ rows df ∧ py_str (cell_at df pc r) = prod).
  { intros prod. unfold available_products. rewrite series_elem by done.
    rewrite foldl_push_new_elem, list_elem_of_fmap. split.
    - intros [H|(v & -> & (r & -> & Hr)%list_elem_of_fmap)]; [by apply elem_of_nil in H|eauto].
    - intros (r & Hr & <-). right. exists (cell_at df pc r). split; [done|].
      apply list_elem_of_fmap. eauto. }
  split; [|split; [exact Hoffered|]].
  - unfold available_products. rewrite series_elem by done.
    apply foldl_push_new_NoDup. constructor.
  - intros quantities prod qty Hq Hpos. unfold taken_quantity. rewrite Hq. simpl.
    destruct (Z.leb_spec qty 0); [lia|].
    destruct (col_index_elem _ _ Hpc) as [i Hi]. rewrite Hi.
    assert (Hcell : ∀ r, cell_at df pc r = cell i r).
    { intros r. unfold cell_at. by rewrite Hi. }
    case_bool_decide as Hin.
    + apply Hoffered in Hin as (r & Hr & Hprod). rewrite Hcell in Hprod.
      destruct (find_is_Some (λ r, String.eqb (py_str (cell i r)) prod) (rows df) r Hr)
        as [r' Hr']; [by apply String.eqb_eq|].
      unfold first_match. by rewrite Hr'.
    + destruct (first_match df i prod) as [r|] eqn:Hr; [|done].
      destruct Hin. apply Hoffered. exists r. rewrite Hcell.
      apply List.find_some in Hr as [Hr Heq]. split; [by apply list_elem_of_In|].
      by apply String.eqb_eq.
Qed.

Lemma available_products_spec_witness :
  taken_quantity bolt_nut "Item" {[ "Nut" := 3 ]} "Nut" =
  if bool_decide ("Nut" ∈ available_products bolt_nut "Item") then 3 else 0.
Proof.
  assert (Hpc : "Item" ∈ columns bolt_nut) by left.
  apply (proj2 (proj2 (available_products_spec bolt_nut "Item" Hpc))
           {[ "Nut" := 3 ]} "Nut" 3); [reflexivity|lia].
Defined.

Lemma foldl_push_new_filter l acc :
  NoDup l →
  foldl push_new acc l = acc ++ List.filter (λ c, negb (bool_decide (c ∈ acc))) l.
Proof.
  intros Hl. revert acc. induction Hl as [|c l Hc _ IH]; intros acc; simpl.
  - by rewrite app_nil_r.
  - rewrite IH. unfold push_new. case_bool_decide as Hin; simpl; [done|].
    rewrite <- app_assoc. simpl. do 2 f_equal.
    apply List.filter_ext_in. intros x Hx%list_elem_of_In. f_equal.
    apply bool_decide_ext. rewrite elem_of_app, list_elem_of_singleton.
    split; [|auto]. intros [?| ->]; done.
Qed.

(** The leading columns: those of product column, [Lagerort_Anzeige] and
    [Menge] that are columns, each once, in that order. *)
Lemma leading_spec (pc : string) (cols : list string) :
  let leading :=
    foldl (λ ordered c, if bool_decide (c ∈ cols) then push_new ordered c else ordered)
      [] [pc; Lagerort_Anzeige; Menge] in
  NoDup leading ∧
  (∀ c, c ∈ leading ↔ c ∈ [pc; Lagerort_Anzeige; Menge] ∧ c ∈ cols) ∧
  (pc ∈ cols → head leading = Some pc).
Proof.
  simpl. split; [|split].
  - repeat case_bool_decide; repeat apply push_new_NoDup; constructor.
  - intros c.
    repeat case_bool_decide; rewrite ?push_new_elem, !elem_of_cons, !elem_of_nil;
      split; intros; destruct_and?; destruct_or?; subst; tauto.
  - intros Hpc. rewrite (bool_decide_eq_true_2 _ Hpc).
    assert (push_new [] pc = [pc]) as -> by done.
    unfold push_new. by repeat case_bool_decide.
Qed.

(** X16: the column order of the shown and exported pick list.  For column
    names that are all different, the ordered columns are a rearrangement of
    the columns (none lost, none repeated); the product column comes first;
    and the columns other than product column, [Lagerort_Anzeige] and
    [Menge] come last, in their original order. *)
Theorem ordered_cols_spec (pc : string) (cols : list string) :
  NoDup cols →
  ordered_cols pc cols ≡ₚ cols ∧
  (pc ∈ cols → head (ordered_cols pc cols) = Some pc) ∧
  List.filter (λ c, negb (bool_decide (c ∈ [pc; Lagerort_Anzeige; Menge]))) cols
    `suffix_of` ordered_cols pc cols.
Proof.
  intros Hcols. unfold ordered_cols.
  destruct (leading_spec pc cols) as (Hnd & Hmem & Hhead).
  set (leading := foldl _ [] [pc; Lagerort_Anzeige; Menge]) in *.
  split; [|split].
  - apply NoDup_Permutation; [by apply foldl_push_new_NoDup|done|].
    intros c. rewrite foldl_push_new_elem, Hmem. tauto.
  - intros Hpc. rewrite foldl_push_new_filter by done.
    specialize (Hhead Hpc). destruct leading; [done|]. exact Hhead.
  - rewrite foldl_push_new_filter by done. exists leading. f_equal.
    apply List.filter_ext_in. intros c Hc%list_elem_of_In. f_equal.
    apply bool_decide_ext. rewrite Hmem. tauto.
Qed.

Lemma ordered_cols_spec_witness :
  ["Bin"; "Preis"] `suffix_of` ordered_cols "Item" ["Bin"; "Menge"; "Item"; "Preis"].
Proof.
  refine (proj2 (proj2 (ordered_cols_spec "Item" ["Bin"; "Menge"; "Item"; "Preis"] _))).
  repeat constructor; intros H;
    repeat (apply elem_of_cons in H as [H|H]; [discriminate H|]);
    by apply elem_of_nil in H.
Defined.

Lemma try_seps_inl {E} (read_csv : option string → DataFrame + E) seps le df :
  try_seps read_csv seps le = inl df ↔
  ∃ pre sep post, seps = pre ++ sep :: post ∧ read_csv sep = inl df ∧
    (1 ≤ length (columns df))%nat ∧
    ∀ s df', s ∈ pre → read_csv s = inl df' → columns df' = [].
Proof.
  revert le. induction seps as [|s seps IH]; intros le; cbn [try_seps].
  - split; [done|]. intros (pre & sep & post & H & _). by destruct pre.
  - assert (Hlater : (∀ df', read_csv s = inl df' → columns df' = []) →
      (∃ pre sep post, seps = pre ++ sep :: post ∧ read_csv sep = inl df ∧
         (1 ≤ length (columns df))%nat ∧
         ∀ s df', s ∈ pre → read_csv s = inl df' → columns df' = []) ↔
      (∃ pre sep post, s :: seps = pre ++ sep :: post ∧ read_csv sep = inl df ∧
         (1 ≤ length (columns df))%nat ∧
         ∀ s df', s ∈ pre → read_csv s = inl df' → columns df' = [])).
    { intros Hbad. split.
      - intros (pre & sep & post & -> & Hr & Hl & Hpre).
        exists (s :: pre), sep, post. split; [done|]. split; [done|]. split; [done|].
        intros s' df' [->|Hin]%elem_of_cons Hr'; [by apply Hbad|by eapply Hpre].
      - intros (pre & sep & post & Heq & Hr & Hl & Hpre).
        destruct pre as [|s' pre]; simpl in Heq; injection Heq as Hs Hseps.
        + subst sep. rewrite (Hbad df Hr) in Hl. simpl in Hl. lia.
        + subst s' seps. exists pre, sep, post.
          split; [done|]. split; [done|]. split; [done|].
          intros s'' df' Hin. apply Hpre. by right. }
    destruct (read_csv s) as [df0|e] eqn:Hs.
    + destruct (Nat.leb_spec 1 (length (columns df0))) as [Hlen|Hlen].
      * split.
        -- intros [= ->]. exists [], s, seps. split; [done|]. split; [done|].
           split; [done|]. by intros ? ? ?%elem_of_nil.
        -- intros (pre & sep & post & Heq & Hr & Hl & Hpre).
           destruct pre as [|s' pre]; simpl in Heq; injection Heq as Hs' Hseps.
           ++ subst sep. congruence.
           ++ subst s'. assert (columns df0 = []) as H0 by (apply (Hpre s); [left|done]).
              rewrite H0 in Hlen. simpl in Hlen. lia.
      * rewrite IH. apply Hlater. intros df' [= <-].
        destruct (columns df0); [done|]. simpl in Hlen. lia.
    + rewrite IH. apply Hlater. intros df' [=].
Qed.

Lemma try_seps_inr {E} (read_csv : option string → DataFrame + E) seps le err :
  try_seps read_csv seps le = inr err →
  (∀ s df', s ∈ seps → read_csv s = inl df' → columns df' = []) ∧
  err = match last (omap (λ s, match read_csv s with inr e => Some e | inl _ => None end) seps)
        with Some e => Some e | None => le end.
Proof.
  revert le. induction seps as [|s seps IH]; intros le; cbn [try_seps omap list_omap].
  - intros [= <-]. split; [|done]. by intros ? ? ?%elem_of_nil.
  - destruct (read_csv s) as [df0|e] eqn:Hs.
    + destruct (Nat.leb_spec 1 (length (columns df0))) as [Hlen|Hlen]; [done|].
      intros [Hall ->]%IH. split; [|done].
      intros s' df' [->|Hin]%elem_of_cons Hr'; [|by eapply Hall].
      assert (df' = df0) as -> by congruence.
      destruct (columns df0); [done|]. simpl in Hlen. lia.
    + intros [Hall ->]%IH. split.
      * intros s' df' [->|Hin]%elem_of_cons Hr'; [congruence|by eapply Hall].
      * rewrite last_cons. by destruct (last _).
Qed.

(** X17: [load_inventory] returns a table exactly when some separator of
    the list (automatic detection, semicolon, comma, tab, bar) gives a table
    with at least one column, and then it is the table of the first such
    separator; it fails otherwise, that is when every read either raised or
    gave a table without columns, and the failure quotes the exception of the
    last read that raised. *)
Theorem load_inventory_spec {E} (read_csv : option string → DataFrame + E) :
  (∀ df, load_inventory read_csv = inl df ↔
     ∃ pre sep post, potential_seps = pre ++ sep :: post ∧ read_csv sep = inl df ∧
       (1 ≤ length (columns df))%nat ∧
       ∀ s df', s ∈ pre → read_csv s = inl df' → columns df' = []) ∧
  (∀ err, load_inventory read_csv = inr err →
     (∀ s df', s ∈ potential_seps → read_csv s = inl df' → columns df' = []) ∧
     err = last (omap (λ s, match read_csv s with inr e => Some e | inl _ => None end)
                   potential_seps)).
Proof.
  split.
  - intros df. apply try_seps_inl.
  - intros err [Hall ->]%try_seps_inr. split; [done|]. by destruct (last _).
Qed.

Lemma load_inventory_spec_witness :
  load_inventory
    (λ sep, if decide (sep = Some ",") then inl bolt_nut else inr "could not parse") =
  inl bolt_nut.
Proof.
  apply (proj1 (load_inventory_spec
                  (λ sep, if decide (sep = Some ",") then inl bolt_nut
                          else inr "could not parse")) bolt_nut).
  exists [None; Some ";"], (Some ","), [Some (String "009" EmptyString); Some "|"].
  split; [reflexivity|]. split; [reflexivity|]. split; [simpl; lia|].
  intros s df' Hs. repeat (apply elem_of_cons in Hs as [->|Hs]); [done|done|].
  by apply elem_of_nil in Hs.
Defined.

End script_more.
